(** * LRC lyric timecodes, parsing and merging (src/Lyrics.py)

    A shallow embedding of [LRCParser] and [LyricsMerger] together with the
    pieces of the Python runtime they rely on ([str.strip], [str.split],
    [int], the [d] format code, [re.findall] / [re.sub] for the tag pattern,
    stable [list.sort], [dict] and [set]).

    Python strings are sequences of Unicode code points: a character is a
    code point of type [N] and a string a [list N].  Python integers are
    unbounded and modelled by [Z].  The interpreter's optional cap on the
    number of digits of an int/str conversion ([sys.set_int_max_str_digits],
    switched off by the value 0) is not part of the model.

    After the lyric code come the parts of the downloader that compute
    (src/main.py: file names, unique directories, requests with retries) and
    the parser of the playlist page (src/Songs_url.py).  The network, the
    file system and the HTML tokenizer are taken as given: a function tells
    what each attempt of a request comes to, a set holds the names in the
    base directory, and a page is the sequence of the calls the tokenizer
    makes to the handlers. *)

From Stdlib Require Import ZArith NArith Lia String Ascii.
From stdpp Require Import base option list sorting gmap.

Local Open Scope N_scope.

Abbreviation char := N (only parsing).
Abbreviation str := (list N) (only parsing).

(** ** String literals *)

(** Literals are written as Rocq strings, whose bytes are the UTF-8 encoding
    of the text; [utf8] decodes them into code points. *)
Fixpoint utf8_go (acc : N) (need : nat) (bs : list N) : str :=
  match bs with
  | [] => []
  | b :: bs' =>
      match need with
      | S n' =>
          let acc' := acc * 64 + b mod 64 in
          match n' with
          | O => acc' :: utf8_go 0 O bs'
          | S _ => utf8_go acc' n' bs'
          end
      | O =>
          if b <? 128 then b :: utf8_go 0 O bs'
          else if b <? 224 then utf8_go (b mod 32) 1%nat bs'
          else if b <? 240 then utf8_go (b mod 16) 2%nat bs'
          else utf8_go (b mod 8) 3%nat bs'
      end
  end.

Fixpoint bytes_of (s : string) : list N :=
  match s with
  | EmptyString => []
  | String a s' => N_of_ascii a :: bytes_of s'
  end.

Definition utf8 (s : string) : str := utf8_go 0 O (bytes_of s).

Abbreviation NEWLINE := 10 (only parsing).
Abbreviation SPACE := 32 (only parsing).
Abbreviation PLUS := 43 (only parsing).
Abbreviation MINUS := 45 (only parsing).
Abbreviation DOT := 46 (only parsing).
Abbreviation SLASH := 47 (only parsing).
Abbreviation ZERO := 48 (only parsing).
Abbreviation COLON := 58 (only parsing).
Abbreviation QUESTION := 63 (only parsing).
Abbreviation LBRACKET := 91 (only parsing).
Abbreviation RBRACKET := 93 (only parsing).
Abbreviation UNDERSCORE := 95 (only parsing).

(** ** Character classes of the interpreter *)

(** [str.isspace] on one character; also the set removed by [str.strip()]. *)
Definition isspace (c : char) : bool :=
  ((9 <=? c) && (c <=? 13)) || ((28 <=? c) && (c <=? 32))
  || (c =? 133) || (c =? 160) || (c =? 5760)
  || ((8192 <=? c) && (c <=? 8202))
  || (c =? 8232) || (c =? 8233) || (c =? 8239) || (c =? 8287) || (c =? 12288).

(** The C-locale [isspace] used by the integer parser once the text is ASCII. *)
Definition ascii_isspace (c : char) : bool :=
  ((9 <=? c) && (c <=? 13)) || (c =? 32).

(** Code points of the digit zero of every decimal-digit block (general
    category Nd, Unicode 14.0.0); the nine following code points are the
    digits one to nine of the block. *)
Definition DECIMAL_ZEROS : list N :=
  [ 48; 1632; 1776; 1984; 2406; 2534; 2662; 2790; 2918; 3046; 3174; 3302;
    3430; 3558; 3664; 3792; 3872; 4160; 4240; 6112; 6160; 6470; 6608; 6784;
    6800; 6992; 7088; 7232; 7248; 42528; 43216; 43264; 43472; 43504; 43600;
    44016; 65296; 66720; 68912; 69734; 69872; 69942; 70096; 70384; 70736;
    70864; 71248; 71360; 71472; 71904; 72016; 72784; 73040; 73120; 92768;
    92864; 93008; 120782; 120792; 120802; 120812; 120822; 123200; 123632;
    125264; 130032 ].

Fixpoint decimal_in (zeros : list N) (c : char) : option N :=
  match zeros with
  | [] => None
  | z :: zeros' =>
      if (z <=? c) && (c <? z + 10) then Some (c - z) else decimal_in zeros' c
  end.

(** [unicodedata.decimal]: the value of a decimal digit, if it is one. *)
Definition decimal_value (c : char) : option N := decimal_in DECIMAL_ZEROS c.

(** [str.isdecimal] on one character; this is what [\d] matches. *)
Definition isdecimal (c : char) : bool :=
  match decimal_value c with Some _ => true | None => false end.

(** ** [str] methods *)

Fixpoint lstrip_by (p : char -> bool) (s : str) : str :=
  match s with
  | [] => []
  | c :: s' => if p c then lstrip_by p s' else s
  end.

Definition rstrip_by (p : char -> bool) (s : str) : str :=
  rev (lstrip_by p (rev s)).

Definition strip_by (p : char -> bool) (s : str) : str :=
  lstrip_by p (rstrip_by p s).

(** [s.strip()] *)
Definition strip (s : str) : str := strip_by isspace s.

Definition char_in (chars : str) (c : char) : bool :=
  existsb (N.eqb c) chars.

(** [s.strip(chars)] *)
Definition strip_chars (chars : str) (s : str) : str :=
  strip_by (char_in chars) s.

(** [sep in s] for a one-character [sep] *)
Definition contains (sep : char) (s : str) : bool := char_in s sep.

(** [s.split(sep, 1)] for a one-character [sep]: one or two pieces. *)
Fixpoint split_max1 (sep : char) (s : str) : list str :=
  match s with
  | [] => [[]]
  | c :: s' =>
      if c =? sep then [[]; s']
      else
        match split_max1 sep s' with
        | piece :: pieces => (c :: piece) :: pieces
        | [] => [[c]]
        end
  end.

(** [s.split(sep)] for a one-character [sep]. *)
Fixpoint split (sep : char) (s : str) : list str :=
  match s with
  | [] => [[]]
  | c :: s' =>
      if c =? sep then [] :: split sep s'
      else
        match split sep s' with
        | piece :: pieces => (c :: piece) :: pieces
        | [] => [[c]]
        end
  end.

(** [a, b = pieces]: unpacking fails unless there are exactly two pieces. *)
Definition unpack2 (pieces : list str) : option (str * str) :=
  match pieces with
  | [a; b] => Some (a, b)
  | _ => None
  end.

(** ** [int(s)] *)

(** Non-ASCII text is first rewritten: white space becomes a blank, decimal
    digits become ASCII digits and any other character becomes [?], where
    the rewriting stops. *)
Fixpoint transform_decimal_and_space (s : str) : str :=
  match s with
  | [] => []
  | c :: s' =>
      if c <? 127 then c :: transform_decimal_and_space s'
      else if isspace c then SPACE :: transform_decimal_and_space s'
      else
        match decimal_value c with
        | Some d => (ZERO + d) :: transform_decimal_and_space s'
        | None => [QUESTION]
        end
  end.

Definition is_ascii (s : str) : bool := forallb (fun c => c <? 128) s.

Definition ascii_digit (c : char) : option N :=
  if (ZERO <=? c) && (c <=? 57) then Some (c - ZERO) else None.

(** The digit loop: digits with single underscores between them.  [prev] is
    the previous character ([None] before the first one); the result is the
    accumulated value and the unread rest. *)
Fixpoint scan_digits (prev : option char) (acc : N) (s : str)
  : option (N * str) :=
  match s with
  | [] => if decide (prev = Some UNDERSCORE) then None else Some (acc, [])
  | c :: s' =>
      match ascii_digit c with
      | Some d => scan_digits (Some c) (acc * 10 + d) s'
      | None =>
          if c =? UNDERSCORE then
            if decide (prev = Some UNDERSCORE) then None
            else scan_digits (Some c) acc s'
          else if decide (prev = Some UNDERSCORE) then None
          else Some (acc, s)
      end
  end.

(** [int(s)]: white space around, an optional sign, then the digit loop,
    which must read up to the end.  [None] stands for [ValueError]. *)
Definition py_int (s : str) : option Z :=
  let s := if is_ascii s then s else transform_decimal_and_space s in
  let s := lstrip_by ascii_isspace s in
  let '(negative, s) :=
    match s with
    | c :: s' =>
        if c =? PLUS then (false, s')
        else if c =? MINUS then (true, s')
        else (false, s)
    | [] => (false, s)
    end in
  match s with
  | [] => None
  | c :: _ =>
      if c =? UNDERSCORE then None
      else
        match ascii_digit c with
        | None => None
        | Some _ =>
            match scan_digits None 0 s with
            | Some (n, rest) =>
                match lstrip_by ascii_isspace rest with
                | [] => Some (if negative : bool then - Z.of_N n else Z.of_N n)%Z
                | _ :: _ => None
                end
            | None => None
            end
        end
  end.

(** ** The [d] format code with zero padding: [f"{n:0{width}d}"] *)

(** The decimal digits of [n], most significant first; [fuel] bounds their
    number. *)
Fixpoint digits_fuel (fuel : nat) (n : N) : str :=
  match fuel with
  | O => []
  | S fuel' =>
      if n <? 10 then [ZERO + n]
      else digits_fuel fuel' (n / 10) ++ [ZERO + n mod 10]
  end.

(** [str(n)] for a natural number; it has no more decimal digits than
    binary ones. *)
Definition digits (n : N) : str := digits_fuel (S (N.to_nat (N.size n))) n.

Definition zero_fill (width : nat) (s : str) : str :=
  replicate (width - length s) ZERO ++ s.

(** The sign counts towards the width and precedes the padding. *)
Definition format_0d (width : nat) (n : Z) : str :=
  if (n <? 0)%Z then MINUS :: zero_fill (width - 1) (digits (Z.to_N (- n)))
  else zero_fill width (digits (Z.to_N n)).

(** ** Regular expressions: the fragment the tag pattern uses *)

Inductive atom : Type :=
  | Lit (c : char)      (* an escaped or plain literal character *)
  | AnyDecimal.         (* \d *)

Inductive item : Type :=
  | One (a : atom)
  | OneOrMore (a : atom).   (* a+ , greedy *)

Definition atom_matches (a : atom) (c : char) : bool :=
  match a with
  | Lit c' => c =? c'
  | AnyDecimal => isdecimal c
  end.

(** Length of the longest prefix made of characters matching [a]. *)
Fixpoint run_length (a : atom) (s : str) : nat :=
  match s with
  | [] => O
  | c :: s' => if atom_matches a c then S (run_length a s') else O
  end.

(** [a+] has taken [k] characters of [s]; try the rest of the pattern there
    and give back one character at a time while it fails. *)
Fixpoint give_back (rest_match : str -> option nat) (s : str) (k : nat)
  : option nat :=
  match k with
  | O => None
  | S k' =>
      match rest_match (drop k s) with
      | Some n => Some (k + n)%nat
      | None => give_back rest_match s k'
      end
  end.

(** Anchored match of a sequence of items, by backtracking: [a+] first takes
    as many characters as it can.  The result is the length of the match. *)
Fixpoint match_here (p : list item) (s : str) : option nat :=
  match p with
  | [] => Some O
  | One a :: p' =>
      match s with
      | c :: s' => if atom_matches a c then S <$> match_here p' s' else None
      | [] => None
      end
  | OneOrMore a :: p' => give_back (match_here p') s (run_length a s)
  end.

(** The pattern [\[(\d+:\d+\.\d+)\]].  Its first and last items consume
    one character each and group 1 spans everything between them. *)
Definition TIME_PATTERN : list item :=
  [ One (Lit LBRACKET); OneOrMore AnyDecimal; One (Lit COLON);
    OneOrMore AnyDecimal; One (Lit DOT); OneOrMore AnyDecimal;
    One (Lit RBRACKET) ].

Definition group1 (whole : str) : str := removelast (tail whole).

(** Left-to-right scan for non-overlapping matches.  [skip] counts the
    characters of the current match still to be passed over.  (A pattern of
    this fragment that begins with [One] never matches the empty string.) *)
Inductive piece : Type :=
  | Unmatched (c : char)
  | Matched (whole : str).

Fixpoint scan (p : list item) (skip : nat) (s : str) : list piece :=
  match s with
  | [] => []
  | c :: s' =>
      match skip with
      | S k => scan p k s'
      | O =>
          match match_here p s with
          | Some (S n) => Matched (take (S n) s) :: scan p n s'
          | _ => Unmatched c :: scan p O s'
          end
      end
  end.

(** [re.findall(p, s)] for a pattern with one group *)
Definition findall (p : list item) (s : str) : list str :=
  omap (fun x => match x with Matched w => Some (group1 w) | Unmatched _ => None end)
       (scan p O s).

(** [re.sub(p, repl, s)] for a replacement without group references *)
Definition sub (p : list item) (repl : str) (s : str) : str :=
  concat (map (fun x => match x with Matched _ => repl | Unmatched c => [c] end)
              (scan p O s)).

(** ** Exceptions and printing *)

Inductive exn : Type :=
  | ValueError (message : str).

Inductive outcome (A : Type) : Type :=
  | Return (a : A)
  | Raise (e : exn).
Arguments Return {A} a.
Arguments Raise {A} e.

(** A computation that may print lines and then returns or raises. *)
Record Py (A : Type) : Type := mkPy { result : outcome A; printed : list str }.
Arguments mkPy {A} result printed.
Arguments result {A} _.
Arguments printed {A} _.

#[global] Instance Py_ret : MRet Py := fun A a => mkPy (Return a) [].

#[global] Instance Py_bind : MBind Py := fun A B f m =>
  match result m with
  | Return a => mkPy (result (f a)) (printed m ++ printed (f a))
  | Raise e => mkPy (Raise e) (printed m)
  end.

Definition lift {A} (o : outcome A) : Py A := mkPy o [].

Definition print (line : str) : Py unit := mkPy (Return tt) [line].

(** [try: body  except ValueError as e: handler(e)] *)
Definition try_except {A} (body : Py A) (handler : exn -> Py A) : Py A :=
  match result body with
  | Return a => body
  | Raise e =>
      mkPy (result (handler e)) (printed body ++ printed (handler e))
  end.

(** [for x in xs: acc = body(x, acc)] *)
Fixpoint for_each {X S : Type} (xs : list X) (body : X -> S -> Py S) (acc : S)
  : Py S :=
  match xs with
  | [] => mret acc
  | x :: xs' => acc' ← body x acc; for_each xs' body acc'
  end.

(** ** LRCParser *)

Definition nonempty (s : str) : bool :=
  match s with [] => false | _ :: _ => true end.

Definition INVALID_TIME_FORMAT : str := utf8 "无效的时间格式: ".

(** The body of the [try] block of [parse_lrc_time]; [None] stands for a
    [ValueError] raised by the unpacking or by [int].  In the last line
    [milliseconds] is already an integer, on which [int] is the identity. *)
Definition parse_lrc_time_body (time_str : str) : option Z :=
  '(minutes, rest) ← unpack2 (split_max1 COLON time_str);
  '(seconds, milliseconds) ←
    (if contains DOT rest then
       '(seconds, milliseconds) ← unpack2 (split_max1 DOT rest);
       milliseconds ←
         (if (length milliseconds =? 2)%nat
          then (fun v => v * 10)%Z <$> py_int milliseconds
          else py_int (take 3 milliseconds));
       Some (seconds, milliseconds)
     else Some (rest, 0%Z));
  minutes ← py_int minutes;
  seconds ← py_int seconds;
  Some (minutes * 60000 + seconds * 1000 + milliseconds)%Z.

Definition parse_lrc_time (time_str : str) : outcome Z :=
  let time_str := strip_chars [LBRACKET; RBRACKET] time_str in
  match parse_lrc_time_body time_str with
  | Some ms => Return ms
  | None => Raise (ValueError (INVALID_TIME_FORMAT ++ time_str))
  end.

Definition format_lrc_time (milliseconds : Z) : str :=
  let minutes := (milliseconds / 60000)%Z in
  let seconds := (milliseconds mod 60000 / 1000)%Z in
  let millis := (milliseconds mod 1000)%Z in
  [LBRACKET] ++ format_0d 2 minutes ++ [COLON] ++ format_0d 2 seconds
    ++ [DOT] ++ format_0d 3 millis ++ [RBRACKET].

(** The entries [{'time': ..., 'content': ...}] *)
Record lyric : Type := Lyric { time : Z; content : str }.

(** [l.sort(key=...)]: the sort is stable; an insertion sort that puts an
    element before the first later element whose key is not smaller. *)
Fixpoint insert_by {A} (key : A -> Z) (x : A) (l : list A) : list A :=
  match l with
  | [] => [x]
  | y :: l' =>
      if (key x <=? key y)%Z then x :: l else y :: insert_by key x l'
  end.

Fixpoint sort_by {A} (key : A -> Z) (l : list A) : list A :=
  match l with
  | [] => []
  | x :: l' => insert_by key x (sort_by key l')
  end.

Definition skip_warning (time_match : str) (e : exn) : str :=
  match e with
  | ValueError message =>
      utf8 "警告: 跳过无效时间标签 '" ++ time_match ++ utf8 "': " ++ message
  end.

(** The body of [for time_match in time_matches] *)
Definition add_time_match (content : str) (time_match : str)
    (lyrics : list lyric) : Py (list lyric) :=
  try_except
    (time_ms ← lift (parse_lrc_time time_match);
     mret (lyrics ++ [Lyric time_ms content]))
    (fun e => _ ← print (skip_warning time_match e); mret lyrics).

(** The body of [for line in lines] *)
Definition add_line (line : str) (lyrics : list lyric) : Py (list lyric) :=
  let line := strip line in
  if negb (nonempty line) then mret lyrics
  else
    let time_matches := findall TIME_PATTERN line in
    match time_matches with
    | _ :: _ =>
        let content := strip (sub TIME_PATTERN [] line) in
        if nonempty content
        then for_each time_matches (add_time_match content) lyrics
        else mret lyrics
    | [] => mret lyrics
    end.

Definition parse_lrc_content (text : str) : Py (list lyric) :=
  if negb (nonempty text) || negb (nonempty (strip text)) then mret []
  else
    let lines := split NEWLINE (strip text) in
    lyrics ← for_each lines add_line [];
    mret (sort_by time lyrics).

(** ** LyricsMerger *)

(** [{lyric['time']: lyric['content'] for lyric in lyrics}] *)
Definition time_dict (lyrics : list lyric) : gmap Z (list N) :=
  foldl (fun d l => <[time l := content l]> d) ∅ lyrics.

(** [sorted(a | b)] for two sets of integers *)
Definition sorted_union (a b : gset Z) : list Z :=
  merge_sort Z.le (elements (a ∪ b)).

(** The body of [for time_ms in all_times] *)
Definition add_merged_line (original_dict translated_dict : gmap Z (list N))
    (time_ms : Z) (merged_lines : list str) : Py (list str) :=
  let original_content := default [] (original_dict !! time_ms) in
  let translated_content := default [] (translated_dict !! time_ms) in
  if nonempty original_content && nonempty translated_content then
    mret (merged_lines ++
          [format_lrc_time time_ms ++ [SPACE] ++ original_content
             ++ [SPACE; SLASH; SPACE] ++ translated_content])
  else if nonempty original_content then
    mret (merged_lines ++
          [format_lrc_time time_ms ++ [SPACE] ++ original_content])
  else if nonempty translated_content then
    mret (merged_lines ++
          [format_lrc_time time_ms ++ [SPACE] ++ translated_content])
  else mret merged_lines.

Definition merge_lyrics (original_text translated_text : str) : Py (list str) :=
  original_lyrics ← parse_lrc_content original_text;
  translated_lyrics ← parse_lrc_content translated_text;
  let original_dict := time_dict original_lyrics in
  let translated_dict := time_dict translated_lyrics in
  let all_times := sorted_union (dom original_dict) (dom translated_dict) in
  for_each all_times (add_merged_line original_dict translated_dict) [].

(** * File names and directories (src/main.py) *)

Abbreviation QUOTE := 34 (only parsing).
Abbreviation LPAREN := 40 (only parsing).
Abbreviation RPAREN := 41 (only parsing).
Abbreviation STAR := 42 (only parsing).
Abbreviation COMMA := 44 (only parsing).
Abbreviation LESS := 60 (only parsing).
Abbreviation GREATER := 62 (only parsing).
Abbreviation BACKSLASH := 92 (only parsing).
Abbreviation BAR := 124 (only parsing).

(** [s.replace(old, new)] for one-character [old] and [new] *)
Definition replace (old new : char) (s : str) : str :=
  (fun c => if c =? old then new else c) <$> s.

(** [str(n)], which is also [f"{n}"], for an integer *)
Definition int_str (n : Z) : str :=
  if (n <? 0)%Z then MINUS :: digits (Z.to_N (- n)) else digits (Z.to_N n).

(** ** MusicDownloader.sanitize_filename *)

(** The characters of the literal between the quotes of
    [invalid_chars = '...']: less-than, greater-than, colon, double quote,
    slash, backslash, bar, question mark, star. *)
Definition invalid_chars : str :=
  [LESS; GREATER; COLON; QUOTE; SLASH; BACKSLASH; BAR; QUESTION; STAR].

(** The argument is a [str]. *)
Definition sanitize_filename (filename : str) : str :=
  if negb (nonempty filename) then utf8 "unknown"
  else
    strip (foldl (fun filename c => replace c COMMA filename)
             filename invalid_chars).

(** [folder_name = f"{song_name}-{artist_name}"] of [process_song], from
    the [name] and [ar_name] fields of the song data *)
Definition folder_name (name ar_name : str) : str :=
  let song_name := sanitize_filename name in
  let artist_name := sanitize_filename ar_name in
  song_name ++ [MINUS] ++ artist_name.

(** ** MusicDownloader.create_unique_directory *)

(** The state of the file system that matters here is the set of the names
    that exist in [base_dir]; [base_name] is one path component, so that
    [base_path.parent] is [base_dir] and [base_path.name] is [base_name],
    and a path below [base_dir] is known by its name.  Names are compared
    as they are written, as a case-sensitive file system does.  Nothing
    else changes the directory while the function runs. *)

(** [while path.exists(): ...]; [fuel] bounds the number of tests. *)
Fixpoint while_exists (fuel : nat) (entries : gset (list N))
    (base_name path : str) (counter : Z) : option str :=
  match fuel with
  | O => None
  | S fuel' =>
      if bool_decide (path ∈ entries) then
        while_exists fuel' entries base_name
          (base_name ++ [LPAREN] ++ int_str counter ++ [RPAREN])
          (counter + 1)%Z
      else Some path
  end.

(** The path returned and the names in [base_dir] afterwards *)
Definition create_unique_directory (fuel : nat) (entries : gset (list N))
    (base_name : str) : option (str * gset (list N)) :=
  path ← while_exists fuel entries base_name base_name 1%Z;
  Some (path, {[path]} ∪ entries).

(** * Requests with retries (src/main.py) *)

(** What one run of the body of a [try] comes to: it reaches its [return],
    it raises a [requests.exceptions.RequestException] whose text is [e], or
    it raises another exception. *)
Inductive attempt (A : Type) : Type :=
  | Completes (a : A)
  | RequestException (e : str)
  | OtherException.
Arguments Completes {A} a.
Arguments RequestException {A} e.
Arguments OtherException {A}.

(** What a call does to the world, in order: requests, printed lines and
    waits in seconds. *)
Inductive action : Type :=
  | Requested (url : str)
  | Printed (line : str)
  | Slept (seconds : Z).

Inductive ending (A : Type) : Type :=
  | Returns (a : A)
  | Propagates.
Arguments Returns {A} a.
Arguments Propagates {A}.

Record run (A : Type) : Type := mkRun { ended : ending A; actions : list action }.
Arguments mkRun {A} ended actions.
Arguments ended {A} _.
Arguments actions {A} _.

(** [range(stop)] *)
Definition range (stop : Z) : list Z := Z.of_nat <$> seq 0 (Z.to_nat stop).

(** ** MusicDownloader.download_binary_file *)

(** [for attempt in ...] of [download_binary_file]; [tries attempt] is what
    the body of the [try] comes to in that iteration, and [filepath] the
    text of the path.  The value returned is [True], [False] or [None].
    The bytes written to the file are not part of the model. *)
Fixpoint download_attempts (tries : Z -> attempt unit) (url filepath : str)
    (max_retries : Z) (attempts : list Z) : run (option bool) :=
  match attempts with
  | [] => mkRun (Returns None) []
  | attempt :: attempts' =>
      match tries attempt with
      | Completes _ =>
          mkRun (Returns (Some true))
            [Requested url; Printed (utf8 "✓ 文件已保存: " ++ filepath)]
      | RequestException e =>
          let failed :=
            Printed (utf8 "✗ 下载失败 (尝试 " ++ int_str (attempt + 1)
                       ++ utf8 "/" ++ int_str max_retries ++ utf8 "): " ++ e) in
          if (attempt <? max_retries - 1)%Z then
            let wait_time := ((attempt + 1) * 5)%Z in
            let later :=
              download_attempts tries url filepath max_retries attempts' in
            mkRun (ended later)
              ([Requested url; failed;
                Printed (utf8 "等待 " ++ int_str wait_time
                           ++ utf8 " 秒后重试...");
                Slept wait_time] ++ actions later)
          else mkRun (Returns (Some false)) [Requested url; failed]
      | OtherException => mkRun Propagates [Requested url]
      end
  end.

Definition download_binary_file (tries : Z -> attempt unit) (url filepath : str)
    (max_retries : Z) : run (option bool) :=
  download_attempts tries url filepath max_retries (range max_retries).

(** ** MusicDownloader.get_song_data *)

Definition api_url (song_url : str) : str :=
  utf8 "https://api.kxzjoker.cn/api/163_music?url=" ++ song_url
    ++ utf8 "&userid=8719916627&dlt=0846&level=standard&type=json".

(** [for attempt in ...] of [get_song_data]; the value returned is the
    decoded response or [None]. *)
Fixpoint song_data_attempts {J : Type} (tries : Z -> attempt J)
    (song_url : str) (max_retries : Z) (attempts : list Z) : run (option J) :=
  match attempts with
  | [] => mkRun (Returns None) []
  | attempt :: attempts' =>
      match tries attempt with
      | Completes json => mkRun (Returns (Some json)) [Requested (api_url song_url)]
      | RequestException e =>
          let failed :=
            Printed (utf8 "✗ 获取歌曲数据失败 (尝试 " ++ int_str (attempt + 1)
                       ++ utf8 "/" ++ int_str max_retries ++ utf8 "): " ++ e) in
          if (attempt <? max_retries - 1)%Z then
            let wait_time := ((attempt + 1) * 5)%Z in
            let later := song_data_attempts tries song_url max_retries attempts' in
            mkRun (ended later)
              ([Requested (api_url song_url); failed;
                Printed (utf8 "等待 " ++ int_str wait_time
                           ++ utf8 " 秒后重试...");
                Slept wait_time] ++ actions later)
          else mkRun (Returns None) [Requested (api_url song_url); failed]
      | OtherException => mkRun Propagates [Requested (api_url song_url)]
      end
  end.

Definition get_song_data {J : Type} (tries : Z -> attempt J) (song_url : str)
    (max_retries : Z) : run (option J) :=
  song_data_attempts tries song_url max_retries (range max_retries).

(** * Songs of a playlist page (src/Songs_url.py) *)

(** [s.startswith(prefix)] *)
Fixpoint startswith (prefix s : str) : bool :=
  match prefix, s with
  | [], _ => true
  | _ :: _, [] => false
  | c :: prefix', d :: s' => (c =? d) && startswith prefix' s'
  end.

(** [sub in s] for strings *)
Fixpoint contains_str (sub s : str) : bool :=
  startswith sub s
  || match s with
     | [] => false
     | _ :: s' => contains_str sub s'
     end.

(** ** SongParser *)

(** The dict of a song: it is made with the key [href] and may get the key
    [name] later. *)
Record song : Type := Song { href : str; name : option str }.

(** [song.get("name")] as a condition *)
Definition has_name (s : song) : bool :=
  match name s with
  | Some n => nonempty n
  | None => false
  end.

Record SongParser : Type := mkSongParser {
  in_song_list : bool;
  current_song : option song;
  song_links : list song
}.

(** [SongParser()] *)
Definition new_SongParser : SongParser := mkSongParser false None [].

(** The attributes of a start tag, as [HTMLParser] gives them: an attribute
    without a value has the value [None]. *)
Abbreviation attributes := (list (list N * option (list N))) (only parsing).

(** What a handler leaves: the parser, or a [TypeError] *)
Inductive handled : Type :=
  | Handled (self : SongParser)
  | TypeError.

(** The [for attr, value in attrs] loop of [handle_starttag]: whether it
    sets [in_song_list]; [None] when ["f-hide" in value] raises for a value
    that is [None]. *)
Fixpoint class_f_hide (attrs : attributes) : option bool :=
  match attrs with
  | [] => Some false
  | (attr, value) :: attrs' =>
      if bool_decide (attr = utf8 "class") then
        match value with
        | None => None
        | Some value =>
            if contains_str (utf8 "f-hide") value then Some true
            else class_f_hide attrs'
        end
      else class_f_hide attrs'
  end.

Fixpoint _get_attr_value (attrs : attributes) (target_attr : str)
  : option str :=
  match attrs with
  | [] => None
  | (attr, value) :: attrs' =>
      if bool_decide (attr = target_attr) then value
      else _get_attr_value attrs' target_attr
  end.

Definition handle_starttag (self : SongParser) (tag : str) (attrs : attributes)
  : handled :=
  match (if bool_decide (tag = utf8 "ul") then class_f_hide attrs
         else Some false) with
  | None => TypeError
  | Some entered =>
      let self :=
        if entered then mkSongParser true (current_song self) (song_links self)
        else self in
      if in_song_list self && bool_decide (tag = utf8 "a") then
        match _get_attr_value attrs (utf8 "href") with
        | Some href =>
            if nonempty href && startswith (utf8 "/song") href then
              Handled (mkSongParser (in_song_list self)
                         (Some (Song href None)) (song_links self))
            else Handled self
        | None => Handled self
        end
      else Handled self
  end.

Definition handle_data (self : SongParser) (data : str) : SongParser :=
  match current_song self with
  | Some current =>
      if in_song_list self then
        let cleaned_data := strip data in
        if nonempty cleaned_data then
          mkSongParser (in_song_list self)
            (Some (Song (href current) (Some cleaned_data)))
            (song_links self)
        else self
      else self
  | None => self
  end.

Definition handle_endtag (self : SongParser) (tag : str) : SongParser :=
  let self :=
    match current_song self with
    | Some current =>
        if bool_decide (tag = utf8 "a") then
          mkSongParser (in_song_list self) None
            (if has_name current then song_links self ++ [current]
             else song_links self)
        else self
    | None => self
    end in
  if bool_decide (tag = utf8 "ul") && in_song_list self then
    mkSongParser false (current_song self) (song_links self)
  else self.

(** The calls [HTMLParser.feed] makes to the three handlers, in order; an
    empty-element tag is a start tag followed by an end tag. *)
Inductive markup : Type :=
  | StartTag (tag : str) (attrs : attributes)
  | Data (data : str)
  | EndTag (tag : str).

Definition handle (self : SongParser) (m : markup) : handled :=
  match m with
  | StartTag tag attrs => handle_starttag self tag attrs
  | Data data => Handled (handle_data self data)
  | EndTag tag => Handled (handle_endtag self tag)
  end.

Fixpoint feed (self : SongParser) (page : list markup) : handled :=
  match page with
  | [] => Handled self
  | m :: page' =>
      match handle self m with
      | Handled self' => feed self' page'
      | TypeError => TypeError
      end
  end.

(** ** SongExtractor.get_songs_url_list *)

(** The body of [for song in songs] *)
Definition add_song_url (s : song) (song_urls : list str) : Py (list str) :=
  if nonempty (href s) && has_name s then
    let song_url := utf8 "https://music.163.com" ++ href s in
    _ ← print (utf8 "✓ 找到歌曲: " ++ default [] (name s));
    mret (song_urls ++ [song_url])
  else mret song_urls.

(** [get_songs_url_list] from [songs], the list [get_song_links] returned *)
Definition get_songs_url_list (songs : list song) : Py (list str) :=
  match songs with
  | [] => _ ← print (utf8 "未能提取到歌曲信息"); mret []
  | _ :: _ =>
      song_urls ← for_each songs add_song_url [];
      _ ← print (utf8 "共找到 " ++ int_str (Z.of_nat (length song_urls))
                   ++ utf8 " 首歌曲");
      mret song_urls
  end.

(** * Vocabulary of the statements *)

(** All characters of a text are of the stripped kind. *)
Definition all_in (p : char -> bool) (s : str) : Prop :=
  Forall (fun c => p c = true) s.

(** Nothing to strip at either end. *)
Definition trimmed_by (p : char -> bool) (s : str) : Prop :=
  match s with
  | [] => True
  | c :: _ => p c = false /\ (forall d, last s = Some d -> p d = false)
  end.

Definition trimmed (s : str) : Prop := trimmed_by isspace s.

(** [sep.join(pieces)] for a one-character [sep] *)
Fixpoint join (sep : char) (pieces : list str) : str :=
  match pieces with
  | [] => []
  | [piece] => piece
  | piece :: pieces' => piece ++ sep :: join sep pieces'
  end.

(** The value of a decimal digit (0 for other characters) and the number a
    text of decimal digits denotes. *)
Definition digit_of (c : char) : N := default 0 (decimal_value c).

Definition number (s : str) : N :=
  foldl (fun acc c => acc * 10 + digit_of c) 0 s.

(** A non-empty text made of decimal digits only: what [\d+] matches. *)
Definition decimal_text (s : str) : Prop :=
  s <> [] /\ Forall (fun c => isdecimal c = true) s.

(** A decision procedure for [decimal_text], for concrete texts. *)
Definition is_decimal_text (s : str) : bool := nonempty s && forallb isdecimal s.

(** The text of a timecode without brackets: [MM:SS] or [MM:SS.f...]. *)
Definition timecode (m s : str) (f : option str) : str :=
  m ++ COLON :: s ++ match f with Some f' => DOT :: f' | None => [] end.

(** Milliseconds denoted by a fraction: hundredths when it has two digits,
    otherwise its first three digits. *)
Definition fraction_millis (f : option str) : N :=
  match f with
  | None => 0
  | Some f' =>
      if (length f' =? 2)%nat then number f' * 10 else number (take 3 f')
  end.

Definition timecode_value (m s : str) (f : option str) : Z :=
  Z.of_N (number m * 60000 + number s * 1000 + fraction_millis f).

Definition well_formed (m s : str) (f : option str) : Prop :=
  decimal_text m /\ decimal_text s /\
  match f with Some f' => decimal_text f' | None => True end.

Definition bracket (c : char) : Prop := c = LBRACKET \/ c = RBRACKET.

(** A non-empty text of the ASCII digits [0] to [9]. *)
Definition ascii_digits (s : str) : Prop :=
  s <> [] /\ Forall (fun c => ZERO <= c <= 57) s.

(** A bracketed timecode with a fraction: the text of a tag. *)
Definition tag (m sec f : str) : str :=
  LBRACKET :: timecode m sec (Some f) ++ [RBRACKET].

(** The timestamp of a text the pattern has found. *)
Definition decoded (time_match : str) : Z :=
  match parse_lrc_time time_match with
  | Return ms => ms
  | Raise _ => 0%Z
  end.

(** The entries a physical line contributes, in the order of its tags. *)
Definition line_lyrics (line : str) : list lyric :=
  let line := strip line in
  let content := strip (sub TIME_PATTERN [] line) in
  if nonempty content
  then (fun time_match => Lyric (decoded time_match) content)
       <$> findall TIME_PATTERN line
  else [].

(** The entries of a text in the order the parser meets them. *)
Definition text_lyrics (text : str) : list lyric :=
  flat_map line_lyrics (split NEWLINE (strip text)).

(** The parsed document of a text. *)
Definition parsed (text : str) : list lyric :=
  match result (parse_lrc_content text) with
  | Return lyrics => lyrics
  | Raise _ => []
  end.

(** The order of the keys. *)
Definition by_key {A} (key : A -> Z) : relation A :=
  fun x y => (key x <= key y)%Z.

(** The timestamp-to-text association of one side. *)
Definition association (text : str) : gmap Z (list N) :=
  time_dict (parsed text).

(** The set of timestamps of the parsed document of a text. *)
Definition timestamps (text : str) : gset Z :=
  list_to_set (time <$> parsed text).

(** The line written for a timestamp, by the texts present for it. *)
Definition merged_line (original translated : gmap Z (list N)) (t : Z) : str :=
  match original !! t, translated !! t with
  | Some primary, Some secondary =>
      format_lrc_time t ++ [SPACE] ++ primary
        ++ [SPACE; SLASH; SPACE] ++ secondary
  | Some primary, None => format_lrc_time t ++ [SPACE] ++ primary
  | None, Some secondary => format_lrc_time t ++ [SPACE] ++ secondary
  | None, None => []
  end.

(** The non-blank lines of a text, each stripped. *)
Definition stripped_lines (s : str) : list str :=
  filter (fun line => line <> []) (strip <$> split NEWLINE s).

(** Minutes, seconds and fraction digits of a tag. *)
Abbreviation stamp := (list N * list N * list N)%type (only parsing).

Definition stamp_ok (st : stamp) : Prop :=
  let '(m, sec, f) := st in well_formed m sec (Some f).

Definition stamp_tag (st : stamp) : str :=
  let '(m, sec, f) := st in tag m sec f.

Definition stamp_ms (st : stamp) : Z :=
  let '(m, sec, f) := st in timecode_value m sec (Some f).

(** A physical line: tags, then the text that follows them. *)
Definition tagged_line (stamps : list stamp) (text : str) : str :=
  concat (stamp_tag <$> stamps) ++ text.

(** A text as it is displayed: not empty, nothing to strip, on one line and
    without any tag in it. *)
Definition display_text (text : str) : Prop :=
  text <> [] /\ strip text = text /\ (NEWLINE ∉ text)
  /\ findall TIME_PATTERN text = [].

Definition line_entries (stamps : list stamp) (text : str) : list lyric :=
  (fun st => Lyric (stamp_ms st) text) <$> stamps.

Definition line_ok (line : list stamp * list N) : Prop :=
  Forall stamp_ok (fst line) /\ display_text (snd line).

(** A text of several physical lines. *)
Definition document (lines : list (list stamp * list N)) : str :=
  join NEWLINE ((fun line => tagged_line (fst line) (snd line)) <$> lines).

Definition document_entries (lines : list (list stamp * list N))
  : list lyric :=
  flat_map (fun line => line_entries (fst line) (snd line)) lines.

(** A decision procedure for [display_text], for concrete texts. *)
Definition is_display_text (text : str) : bool :=
  nonempty text && bool_decide (strip text = text)
  && bool_decide (NEWLINE ∉ text)
  && bool_decide (findall TIME_PATTERN text = []).

Definition bracketed (inner : str) : str := LBRACKET :: inner ++ [RBRACKET].

(** The part of a fraction that is read: all of it when it has two
    characters, otherwise its first three. *)
Definition fraction_read (f : str) : str :=
  if (length f =? 2)%nat then f else take 3 f.

(** A bracket-stripped text is rejected when it has no colon, or when [int]
    rejects the text before the first colon, the text between that colon
    and the first dot after it (up to the end without a dot), or the part
    of the fraction that is read. *)
Definition undecodable (t : str) : Prop :=
  COLON ∉ t
  \/ exists m rest,
       t = m ++ COLON :: rest /\ (COLON ∉ m)
       /\ (py_int m = None
           \/ ((DOT ∉ rest) /\ py_int rest = None)
           \/ exists sec f,
                rest = sec ++ DOT :: f /\ (DOT ∉ sec)
                /\ (py_int sec = None \/ py_int (fraction_read f) = None)).

(** What [sanitize_filename] makes of one character *)
Definition clean (c : char) : char :=
  if char_in invalid_chars c then COMMA else c.

(** The names [create_unique_directory] tries, in this order: [name],
    [name(1)], [name(2)], ... *)
Definition candidate (base_name : str) (k : nat) : str :=
  match k with
  | O => base_name
  | S _ => base_name ++ [LPAREN] ++ digits (N.of_nat k) ++ [RPAREN]
  end.

(** A song as it is collected: a link to a song with a title. *)
Definition complete_song (s : song) : Prop :=
  startswith (utf8 "/song") (href s) = true
  /\ exists title, name s = Some title /\ title <> [] /\ strip title = title.

(** The song being read: a link to a song, with a title or not yet. *)
Definition pending_song (s : song) : Prop :=
  startswith (utf8 "/song") (href s) = true
  /\ match name s with
     | Some title => title <> [] /\ strip title = title
     | None => True
     end.

Definition parser_ok (self : SongParser) : Prop :=
  Forall complete_song (song_links self)
  /\ match current_song self with
     | Some current => pending_song current
     | None => True
     end.

Definition is_start (tag : str) (m : markup) : bool :=
  match m with
  | StartTag t _ => bool_decide (t = tag)
  | _ => false
  end.

Definition is_end (tag : str) (m : markup) : bool :=
  match m with
  | EndTag t => bool_decide (t = tag)
  | _ => false
  end.

(** The number of the elements of [l] that satisfy [p] *)
Definition count {A} (p : A -> bool) (l : list A) : nat :=
  length (filter (fun x => p x = true) l).

(** The markup of one song of a playlist page: a list item with a link
    around the title. *)
Definition song_item (entry : list N * list N) : list markup :=
  [StartTag (utf8 "li") [];
   StartTag (utf8 "a") [(utf8 "href", Some entry.1)];
   Data entry.2;
   EndTag (utf8 "a");
   EndTag (utf8 "li")].

(** The hidden list of the songs of a playlist page *)
Definition song_list (entries : list (list N * list N)) : list markup :=
  [StartTag (utf8 "ul") [(utf8 "class", Some (utf8 "f-hide"))]]
  ++ concat (song_item <$> entries) ++ [EndTag (utf8 "ul")].

Definition entry_song (entry : list N * list N) : song :=
  Song entry.1 (Some (strip entry.2)).

(** The address [get_songs_url_list] makes of a song *)
Definition song_address (s : song) : str :=
  utf8 "https://music.163.com" ++ href s.

(** The attributes at which the class test of [handle_starttag] raises: a
    [class] without a value, before any [class] whose value holds
    [f-hide]. *)
Definition valueless_class (attrs : list (list N * option (list N))) : Prop :=
  exists before after,
    attrs = before ++ (utf8 "class", None) :: after
    /\ Forall (fun av =>
                 av.1 = utf8 "class" ->
                 exists value,
                   av.2 = Some value
                   /\ contains_str (utf8 "f-hide") value = false) before.

(** The line [get_songs_url_list] prints for a song *)
Definition found_line (s : song) : str :=
  utf8 "✓ 找到歌曲: " ++ default [] (name s).

(** The attempt [k] fails with an exception of the requests library. *)
Definition fails {A} (tries : Z -> attempt A) (k : Z) : Prop :=
  exists e, tries k = RequestException e.

(** The seconds waited in all *)
Fixpoint waited (acts : list action) : Z :=
  match acts with
  | [] => 0
  | Slept seconds :: acts' => seconds + waited acts'
  | _ :: acts' => waited acts'
  end.

Definition is_request (a : action) : bool :=
  match a with
  | Requested _ => true
  | _ => false
  end.

Definition is_wait (a : action) : bool :=
  match a with
  | Slept _ => true
  | _ => false
  end.

(** The shape the two retry loops share: [on_success] is what a completed
    attempt gives, [given_up] the value returned after the last failure,
    [failed_line] the line printed for a failure. *)
Fixpoint retry {A R} (tries : Z -> attempt A) (url : str)
    (on_success : A -> run R) (given_up : R) (failed_line : Z -> list N -> list N)
    (exhausted : R) (max_retries : Z) (attempts : list Z) : run R :=
  match attempts with
  | [] => mkRun (Returns exhausted) []
  | attempt :: attempts' =>
      match tries attempt with
      | Completes a =>
          mkRun (ended (on_success a)) (Requested url :: actions (on_success a))
      | RequestException e =>
          if (attempt <? max_retries - 1)%Z then
            let later :=
              retry tries url on_success given_up failed_line exhausted
                max_retries attempts' in
            mkRun (ended later)
              ([Requested url; Printed (failed_line attempt e);
                Printed (utf8 "等待 " ++ int_str ((attempt + 1) * 5)
                           ++ utf8 " 秒后重试...");
                Slept ((attempt + 1) * 5)] ++ actions later)
          else
            mkRun (Returns given_up)
              [Requested url; Printed (failed_line attempt e)]
      | OtherException => mkRun Propagates [Requested url]
      end
  end.

(** The attempts from [a] on, [len] of them, of a retry loop over
    [range(n)]. *)
Definition attempts_from {A R} (tries : Z -> attempt A) (url : str)
    (on_success : A -> run R) (given_up : R) (failed_line : Z -> list N -> list N)
    (exhausted : R) (n a len : nat) : run R :=
  retry tries url on_success given_up failed_line exhausted (Z.of_nat n)
    (Z.of_nat <$> seq a len).

(** * Properties *)

(** ** Stripping *)

Section Strip.
Variable p : char -> bool.

Lemma all_in_nil : all_in p [].
Proof. constructor. Qed.

Lemma lstrip_by_all (s t : str) :
  all_in p s -> lstrip_by p (s ++ t) = lstrip_by p t.
Proof.
  induction 1 as [|c s Hc _ IH]; simpl; [done|]. by rewrite Hc.
Qed.

Lemma lstrip_by_stop (c : char) (s : str) :
  p c = false -> lstrip_by p (c :: s) = c :: s.
Proof. intros Hc. simpl. by rewrite Hc. Qed.

Lemma lstrip_by_split (s : str) :
  exists pre, s = pre ++ lstrip_by p s /\ all_in p pre.
Proof.
  induction s as [|c s [pre [Hs Hpre]]]; simpl.
  - exists []. split; [done|constructor].
  - destruct (p c) eqn:Hc.
    + exists (c :: pre). split; [simpl; by rewrite <- Hs|]. by constructor.
    + exists []. split; [done|constructor].
Qed.

Lemma lstrip_by_head (s : str) (c : char) (t : str) :
  lstrip_by p s = c :: t -> p c = false.
Proof.
  induction s as [|d s IH]; simpl; [done|].
  destruct (p d) eqn:Hd; [done|]. by intros [= -> _].
Qed.

Lemma strip_by_sandwich (pre core post : str) :
  all_in p pre -> all_in p post -> trimmed_by p core ->
  strip_by p (pre ++ core ++ post) = core.
Proof.
  intros Hpre Hpost Hcore. unfold strip_by, rstrip_by.
  rewrite !rev_app_distr, <- app_assoc.
  rewrite lstrip_by_all by (by apply Forall_rev).
  destruct core as [|c core]; simpl in *.
  - rewrite <- (app_nil_r (rev pre)), lstrip_by_all by (by apply Forall_rev).
    done.
  - destruct Hcore as [Hc Hlast].
    destruct (rev (c :: core)) as [|d r] eqn:Hrev.
    { apply (f_equal length) in Hrev. rewrite length_rev in Hrev. done. }
    simpl in Hrev. rewrite Hrev.
    assert (p d = false) as Hd.
    { apply Hlast. change (last (c :: core) = Some d).
      rewrite <- (rev_involutive (c :: core)). simpl. rewrite Hrev. simpl.
      by rewrite last_snoc. }
    simpl. rewrite Hd.
    change (d :: r ++ rev pre) with ((d :: r) ++ rev pre).
    rewrite <- Hrev, rev_app_distr, rev_app_distr, rev_involutive. simpl.
    rewrite lstrip_by_all by done.
    simpl. by rewrite Hc, rev_involutive.
Qed.

Lemma strip_by_trimmed (s : str) : trimmed_by p s -> strip_by p s = s.
Proof.
  intros H.
  pose proof (strip_by_sandwich [] s [] all_in_nil all_in_nil H) as E.
  by rewrite app_nil_r in E.
Qed.

Lemma strip_by_all (s : str) : all_in p s -> strip_by p s = [].
Proof.
  intros H.
  pose proof (strip_by_sandwich s [] [] H all_in_nil I) as E.
  by rewrite app_nil_r in E.
Qed.

Lemma strip_by_split (s : str) :
  exists pre post,
    s = pre ++ strip_by p s ++ post /\ all_in p pre /\ all_in p post
    /\ trimmed_by p (strip_by p s).
Proof.
  destruct (lstrip_by_split (rev s)) as [rpost [Hs Hrpost]].
  destruct (lstrip_by_split (rstrip_by p s)) as [pre [Hr Hpre]].
  exists pre, (rev rpost). unfold strip_by.
  assert (s = rstrip_by p s ++ rev rpost) as Hs'.
  { unfold rstrip_by. rewrite <- rev_app_distr, <- Hs.
    by rewrite rev_involutive. }
  split; [|split; [done|split; [by apply Forall_rev|]]].
  { rewrite app_assoc, <- Hr. done. }
  destruct (lstrip_by p (rstrip_by p s)) as [|c t] eqn:Hcore; [done|].
  split; [by eapply lstrip_by_head|].
  intros d Hd.
  (* the last character of the core is the last one of [rstrip_by p s] *)
  assert (last (rstrip_by p s) = Some d) as Hlast.
  { rewrite Hr. rewrite last_app, Hd. done. }
  unfold rstrip_by in Hlast.
  destruct (lstrip_by p (rev s)) as [|e u] eqn:Hu.
  { done. }
  simpl in Hlast. rewrite last_snoc in Hlast. injection Hlast as <-.
  by eapply lstrip_by_head.
Qed.

Lemma strip_by_idemp (s : str) : strip_by p (strip_by p s) = strip_by p s.
Proof.
  destruct (strip_by_split s) as (pre & post & _ & _ & _ & H).
  by apply strip_by_trimmed.
Qed.

Lemma strip_by_rev (s : str) : strip_by p (rev s) = rev (strip_by p s).
Proof.
  destruct (strip_by_split s) as (pre & post & Hs & Hpre & Hpost & H).
  rewrite Hs at 1. rewrite !rev_app_distr, <- app_assoc.
  apply strip_by_sandwich; try by apply Forall_rev.
  destruct (strip_by p s) as [|c t] eqn:Hcore; [done|].
  destruct H as [Hc Hl].
  destruct (rev (c :: t)) as [|d r] eqn:Hrev.
  { apply (f_equal length) in Hrev. rewrite length_rev in Hrev. done. }
  split.
  - apply Hl. rewrite <- (rev_involutive (c :: t)), Hrev. simpl.
    by rewrite last_snoc.
  - intros e He. rewrite <- Hrev in He. simpl in He.
    rewrite last_snoc in He. by injection He as <-.
Qed.

Lemma strip_by_cons_in (c : char) (s : str) :
  p c = true -> strip_by p (c :: s) = strip_by p s.
Proof.
  intros Hc.
  destruct (strip_by_split s) as (pre & post & Hs & Hpre & Hpost & H).
  rewrite Hs at 1.
  change (c :: pre ++ strip_by p s ++ post)
    with ((c :: pre) ++ strip_by p s ++ post).
  apply strip_by_sandwich; try done. by constructor.
Qed.
End Strip.

(** ** Splitting *)

Lemma contains_elem_of (sep : char) (s : str) :
  contains sep s = true <-> sep ∈ s.
Proof.
  unfold contains, char_in. rewrite existsb_exists. split.
  - intros (c & Hin & Heq). apply N.eqb_eq in Heq. subst.
    by apply list_elem_of_In.
  - intros Hin. exists sep. split; [by apply list_elem_of_In|apply N.eqb_refl].
Qed.

Lemma split_max1_absent (sep : char) (s : str) :
  sep ∉ s -> split_max1 sep s = [s].
Proof.
  induction s as [|c s IH]; intros Hs; simpl; [done|].
  apply not_elem_of_cons in Hs as [Hc Hs].
  destruct (N.eqb_spec c sep); [congruence|]. by rewrite IH.
Qed.

Lemma split_max1_first (sep : char) (a b : str) :
  sep ∉ a -> split_max1 sep (a ++ sep :: b) = [a; b].
Proof.
  induction a as [|c a IH]; intros Ha; simpl.
  - by rewrite N.eqb_refl.
  - apply not_elem_of_cons in Ha as [Hc Ha].
    destruct (N.eqb_spec c sep); [congruence|]. by rewrite IH.
Qed.

Lemma char_not_in (c : char) (s : str) : char_in s c = false -> c ∉ s.
Proof.
  intros H Hin. apply contains_elem_of in Hin. unfold contains in Hin.
  congruence.
Qed.

(** Every text either lacks the separator or splits at its first one. *)
Lemma first_occurrence (sep : char) (s : str) :
  sep ∉ s \/ exists a b, s = a ++ sep :: b /\ sep ∉ a.
Proof.
  induction s as [|c s IH].
  - left. apply not_elem_of_nil.
  - destruct (decide (c = sep)) as [->|Hc].
    + right. exists [], s. split; [done|apply not_elem_of_nil].
    + destruct IH as [Hs|(a & b & -> & Ha)].
      * left. by apply not_elem_of_cons.
      * right. exists (c :: a), b. split; [done|by apply not_elem_of_cons].
Qed.

Lemma first_occurrence_unique (sep : char) (a b a' b' : str) :
  sep ∉ a -> sep ∉ a' -> a ++ sep :: b = a' ++ sep :: b' -> a = a' /\ b = b'.
Proof.
  revert a'. induction a as [|c a IH]; intros [|c' a'] Ha Ha' Heq;
    simpl in Heq.
  - by injection Heq as ->.
  - injection Heq as <- _. exfalso. apply Ha'. by left.
  - injection Heq as -> _. exfalso. apply Ha. by left.
  - injection Heq as <- Heq.
    apply not_elem_of_cons in Ha as [_ Ha].
    apply not_elem_of_cons in Ha' as [_ Ha'].
    destruct (IH a' Ha Ha' Heq) as [-> ->]. done.
Qed.

Lemma split_nonempty (sep : char) (s : str) : split sep s <> [].
Proof.
  destruct s as [|c s]; simpl; [done|].
  destruct (c =? sep); [done|]. by destruct (split sep s).
Qed.

Lemma split_absent (sep : char) (s : str) : sep ∉ s -> split sep s = [s].
Proof.
  induction s as [|c s IH]; intros Hs; simpl; [done|].
  apply not_elem_of_cons in Hs as [Hc Hs].
  destruct (N.eqb_spec c sep); [congruence|]. by rewrite IH.
Qed.

Lemma split_app (sep : char) (a b : str) :
  sep ∉ a -> split sep (a ++ sep :: b) = a :: split sep b.
Proof.
  induction a as [|c a IH]; intros Ha; simpl.
  - by rewrite N.eqb_refl.
  - apply not_elem_of_cons in Ha as [Hc Ha].
    destruct (N.eqb_spec c sep); [congruence|]. by rewrite IH.
Qed.

Lemma split_join (sep : char) (pieces : list str) :
  pieces <> [] -> Forall (fun piece => sep ∉ piece) pieces ->
  split sep (join sep pieces) = pieces.
Proof.
  intros Hne Hall. induction Hall as [|piece pieces Hp Hall IH]; [done|].
  destruct pieces as [|piece' pieces].
  - simpl. by apply split_absent.
  - change (join sep (piece :: piece' :: pieces))
      with (piece ++ sep :: join sep (piece' :: pieces)).
    rewrite split_app by done. by rewrite IH.
Qed.

(** ** Decimal digits *)

Lemma decimal_in_Some (zeros : list N) (c d : N) :
  decimal_in zeros c = Some d ->
  exists z, z ∈ zeros /\ z <= c < z + 10 /\ d = c - z.
Proof.
  induction zeros as [|z zeros IH]; simpl; [done|].
  destruct ((z <=? c) && (c <? z + 10)) eqn:Hz.
  - intros [= <-]. apply andb_true_iff in Hz as [H1 H2].
    apply N.leb_le in H1. apply N.ltb_lt in H2.
    exists z. split; [by left|lia].
  - intros H. destruct (IH H) as (z' & Hin & Hz').
    exists z'. split; [by right|done].
Qed.

Lemma decimal_in_above (zeros : list N) (c : N) :
  Forall (fun z => c < z) zeros -> decimal_in zeros c = None.
Proof.
  induction 1 as [|z zeros Hz _ IH]; simpl; [done|].
  destruct (N.leb_spec z c); [lia|]. done.
Qed.

Lemma decimal_value_lt (c d : N) : decimal_value c = Some d -> d < 10.
Proof.
  intros H. apply decimal_in_Some in H as (z & _ & Hz & ->). lia.
Qed.

Lemma decimal_value_ascii (c : N) :
  c < 128 -> decimal_value c = ascii_digit c.
Proof.
  intros Hc. unfold decimal_value, ascii_digit.
  assert (Forall (fun z => c < z) (tail DECIMAL_ZEROS)) as Habove.
  { unfold DECIMAL_ZEROS, tail. repeat (constructor; [lia|]). constructor. }
  change DECIMAL_ZEROS with (48 :: tail DECIMAL_ZEROS).
  remember (tail DECIMAL_ZEROS) as zeros. simpl.
  replace (c <? 48 + 10) with (c <=? 57)
    by (destruct (N.leb_spec c 57), (N.ltb_spec c (48 + 10)); lia).
  destruct ((48 <=? c) && (c <=? 57)); [done|].
  by apply decimal_in_above.
Qed.

Lemma isspace_not_decimal (c : N) : isspace c = true -> decimal_value c = None.
Proof.
  unfold isspace. intros H.
  repeat (apply orb_true_iff in H as [H|H]);
    repeat match goal with
      | H : (_ && _) = true |- _ => apply andb_true_iff in H as [? ?]
      | H : (_ <=? _) = true |- _ => apply N.leb_le in H
      | H : (_ =? _) = true |- _ => apply N.eqb_eq in H; subst
      end; try reflexivity.
  - assert (c = 9 \/ c = 10 \/ c = 11 \/ c = 12 \/ c = 13) as Hc by lia.
    destruct Hc as [->|[->|[->|[->| ->]]]]; reflexivity.
  - assert (c = 28 \/ c = 29 \/ c = 30 \/ c = 31 \/ c = 32) as Hc by lia.
    destruct Hc as [->|[->|[->|[->| ->]]]]; reflexivity.
  - assert (c = 8192 \/ c = 8193 \/ c = 8194 \/ c = 8195 \/ c = 8196
            \/ c = 8197 \/ c = 8198 \/ c = 8199 \/ c = 8200 \/ c = 8201
            \/ c = 8202) as Hc by lia.
    destruct Hc as [->|[->|[->|[->|[->|[->|[->|[->|[->|[->| ->]]]]]]]]]];
      reflexivity.
Qed.

Lemma isdecimal_value (c : N) :
  isdecimal c = true -> decimal_value c = Some (digit_of c) /\ digit_of c < 10.
Proof.
  unfold isdecimal, digit_of. destruct (decimal_value c) as [d|] eqn:Hd; [|done].
  intros _. split; [done|]. simpl. by eapply decimal_value_lt.
Qed.

Lemma ascii_digit_of_digit (d : N) : d < 10 -> ascii_digit (ZERO + d) = Some d.
Proof.
  intros Hd. unfold ascii_digit.
  destruct (N.leb_spec 48 (48 + d)); [|lia].
  destruct (N.leb_spec (48 + d) 57); [|lia].
  simpl. f_equal. lia.
Qed.

(** The text [int] actually reads for a text of decimal digits. *)
Lemma int_input_decimal (s : str) :
  Forall (fun c => isdecimal c = true) s ->
  (if is_ascii s then s else transform_decimal_and_space s)
  = map (fun c => ZERO + digit_of c) s.
Proof.
  intros Hs. destruct (is_ascii s) eqn:Hascii.
  - unfold is_ascii in Hascii. rewrite forallb_forall in Hascii.
    induction Hs as [|c s Hc Hs IH]; [done|]. simpl.
    assert (c < 128) as Hlt.
    { apply N.ltb_lt. apply Hascii. by left. }
    destruct (isdecimal_value c Hc) as [Hv Hd].
    rewrite decimal_value_ascii in Hv by done.
    unfold ascii_digit in Hv.
    destruct ((48 <=? c) && (c <=? 57)) eqn:Hr; [|done].
    apply andb_true_iff in Hr as [H1 H2]. apply N.leb_le in H1.
    injection Hv as Hv. f_equal; [lia|]. apply IH.
    intros x Hx. apply Hascii. by right.
  - clear Hascii. induction Hs as [|c s Hc Hs IH]; [done|]. simpl.
    destruct (isdecimal_value c Hc) as [Hv Hd].
    destruct (N.ltb_spec c 127) as [Hlt|Hge].
    + rewrite decimal_value_ascii in Hv by lia.
      unfold ascii_digit in Hv.
      destruct ((48 <=? c) && (c <=? 57)) eqn:Hr; [|done].
      apply andb_true_iff in Hr as [H1 H2]. apply N.leb_le in H1.
      injection Hv as Hv. f_equal; [lia|done].
    + destruct (isspace c) eqn:Hsp.
      { apply isspace_not_decimal in Hsp. congruence. }
      rewrite Hv. by f_equal.
Qed.

Lemma scan_digits_decimal (s : str) (prev : option N) (acc : N) :
  Forall (fun c => isdecimal c = true) s ->
  (s = [] -> prev <> Some UNDERSCORE) ->
  scan_digits prev acc (map (fun c => ZERO + digit_of c) s)
  = Some (foldl (fun acc c => acc * 10 + digit_of c) acc s, []).
Proof.
  intros Hs. revert prev acc.
  induction Hs as [|c s Hc Hs IH]; intros prev acc Hprev; simpl.
  - destruct (decide (prev = Some 95)) as [E|_]; [|done].
    by destruct Hprev.
  - destruct (isdecimal_value c Hc) as [_ Hd].
    rewrite ascii_digit_of_digit by done. apply IH.
    intros _ [= E]. lia.
Qed.

Lemma py_int_decimal (s : str) :
  decimal_text s -> py_int s = Some (Z.of_N (number s)).
Proof.
  intros [Hne Hs]. unfold py_int. rewrite int_input_decimal by done.
  destruct s as [|c s]; [done|].
  pose proof (Forall_inv Hs) as Hc.
  destruct (isdecimal_value c Hc) as [_ Hd].
  assert (lstrip_by ascii_isspace (map (fun c => 48 + digit_of c) (c :: s))
          = map (fun c => 48 + digit_of c) (c :: s)) as ->.
  { simpl. unfold ascii_isspace.
    destruct (N.leb_spec 9 (48 + digit_of c)), (N.leb_spec (48 + digit_of c) 13),
      (N.eqb_spec (48 + digit_of c) 32); simpl; try done; lia. }
  remember (map (fun c => 48 + digit_of c) (c :: s)) as t eqn:Ht.
  assert (exists t', t = (48 + digit_of c) :: t') as [t' Et].
  { subst t. simpl. eauto. }
  rewrite Et at 1.
  destruct (N.eqb_spec (48 + digit_of c) 43); [lia|].
  destruct (N.eqb_spec (48 + digit_of c) 45); [lia|].
  rewrite Et at 1.
  destruct (N.eqb_spec (48 + digit_of c) 95); [lia|].
  rewrite ascii_digit_of_digit by done.
  rewrite Ht, scan_digits_decimal by done.
  done.
Qed.

Lemma decimal_text_not_elem (c : char) (s : str) :
  isdecimal c = false -> Forall (fun c => isdecimal c = true) s -> c ∉ s.
Proof.
  intros Hc Hs Hin. rewrite Forall_forall in Hs.
  specialize (Hs c Hin). congruence.
Qed.

Lemma decimal_text_take (n : nat) (s : str) :
  decimal_text s -> decimal_text (take (S n) s).
Proof.
  intros [Hne Hs]. split.
  - by destruct s.
  - by apply Forall_take.
Qed.

Lemma decimal_text_app (a b : str) :
  decimal_text a -> Forall (fun c => isdecimal c = true) b ->
  decimal_text (a ++ b).
Proof.
  intros [Hne Ha] Hb. split; [by destruct a|by apply Forall_app].
Qed.

Lemma is_decimal_text_true (s : str) :
  is_decimal_text s = true -> decimal_text s.
Proof.
  unfold is_decimal_text. intros H. apply andb_true_iff in H as [Hne Hs].
  split; [by destruct s|].
  apply Forall_forall. intros c Hc. rewrite forallb_forall in Hs.
  apply Hs. by apply list_elem_of_In.
Qed.

(** ** Decoding well-formed timecodes *)

Lemma timecode_trimmed (m s : str) (f : option str) :
  well_formed m s f -> trimmed_by (char_in [LBRACKET; RBRACKET]) (timecode m s f).
Proof.
  intros ([Hm1 Hm2] & [Hs1 Hs2] & Hf).
  assert (forall c, isdecimal c = true -> char_in [91; 93] c = false) as Hnb.
  { intros c Hc. unfold char_in. simpl.
    destruct (N.eqb_spec c 91) as [->|_]; [done|].
    destruct (N.eqb_spec c 93) as [->|_]; done. }
  unfold timecode. destruct m as [|c m]; [done|]. simpl. split.
  - apply Hnb. by apply Forall_inv in Hm2.
  - intros d Hd. apply Hnb.
    change (c :: m ++ 58 :: s ++ match f with Some f' => 46 :: f' | None => [] end)
      with ((c :: m) ++ [58] ++ s ++ match f with Some f' => 46 :: f' | None => [] end)
      in Hd.
    destruct f as [f|].
    + destruct Hf as [Hf1 Hf2].
      change (46 :: f) with ([46] ++ f) in Hd.
      rewrite !last_app in Hd.
      destruct (last f) as [e|] eqn:He.
      * injection Hd as <-. apply last_Some_elem_of in He.
        rewrite Forall_forall in Hf2. by apply Hf2.
      * apply last_None in He. done.
    + rewrite app_nil_r, !last_app in Hd.
      destruct (last s) as [e|] eqn:He.
      * injection Hd as <-. apply last_Some_elem_of in He.
        rewrite Forall_forall in Hs2. by apply Hs2.
      * apply last_None in He. done.
Qed.

Lemma parse_lrc_time_body_timecode (m s : str) (f : option str) :
  well_formed m s f ->
  parse_lrc_time_body (timecode m s f) = Some (timecode_value m s f).
Proof.
  intros (Hm & Hs & Hf). unfold parse_lrc_time_body, timecode.
  rewrite split_max1_first
    by (apply decimal_text_not_elem; [done|apply Hm]).
  simpl. destruct f as [f|].
  - assert (contains 46 (s ++ 46 :: f) = true) as ->.
    { apply contains_elem_of, elem_of_app. right. by left. }
    rewrite split_max1_first
      by (apply decimal_text_not_elem; [done|apply Hs]).
    unfold timecode_value, fraction_millis, unpack2.
    cbn [mbind option_bind].
    destruct (length f =? 2)%nat.
    + rewrite (py_int_decimal f) by done. cbn [fmap option_fmap option_map mbind option_bind].
      rewrite (py_int_decimal m), (py_int_decimal s) by done.
      cbn [mbind option_bind]. f_equal. lia.
    + rewrite (py_int_decimal (take 3 f)) by (by apply decimal_text_take).
      cbn [mbind option_bind].
      rewrite (py_int_decimal m), (py_int_decimal s) by done.
      cbn [mbind option_bind]. f_equal. lia.
  - rewrite app_nil_r.
    assert (contains 46 s = false) as ->.
    { apply not_true_iff_false. rewrite contains_elem_of.
      apply decimal_text_not_elem; [done|apply Hs]. }
    cbn [mbind option_bind].
    rewrite (py_int_decimal m), (py_int_decimal s) by done.
    unfold timecode_value, fraction_millis. cbn [mbind option_bind].
    f_equal. lia.
Qed.

Lemma bracket_all_in (s : str) :
  Forall bracket s -> all_in (char_in [LBRACKET; RBRACKET]) s.
Proof.
  intros H. eapply Forall_impl; [exact H|].
  intros c [-> | ->]; reflexivity.
Qed.

Lemma parse_lrc_time_bracketed (pre post m s : str) (f : option str) :
  Forall bracket pre -> Forall bracket post -> well_formed m s f ->
  parse_lrc_time (pre ++ timecode m s f ++ post)
  = Return (timecode_value m s f).
Proof.
  intros Hpre Hpost Hwf. unfold parse_lrc_time, strip_chars.
  rewrite strip_by_sandwich
    by (try apply bracket_all_in; try apply timecode_trimmed; done).
  by rewrite parse_lrc_time_body_timecode.
Qed.



(** ** Formatting integers *)

Lemma digits_fuel_enough (f1 f2 : nat) (n : N) :
  n < 2 ^ N.of_nat f1 -> n < 2 ^ N.of_nat f2 ->
  digits_fuel (S f1) n = digits_fuel (S f2) n.
Proof.
  revert f2 n. induction f1 as [|f1 IH]; intros f2 n H1 H2.
  - simpl in H1. assert (n = 0) as -> by lia. done.
  - cbn [digits_fuel]. destruct (N.ltb_spec n 10) as [|Hn]; [done|].
    destruct f2 as [|f2].
    { simpl in H2. lia. }
    f_equal. rewrite Nat2N.inj_succ, N.pow_succ_r' in H1, H2.
    assert (n / 10 <= n / 2) as Hle.
    { apply N.div_le_compat_l. lia. }
    assert (n / 2 < 2 ^ N.of_nat f1) by (apply N.Div0.div_lt_upper_bound; lia).
    assert (n / 2 < 2 ^ N.of_nat f2) by (apply N.Div0.div_lt_upper_bound; lia).
    apply IH; lia.
Qed.

Lemma digits_unfold (n : N) :
  digits n
  = if n <? 10 then [ZERO + n] else digits (n / 10) ++ [ZERO + n mod 10].
Proof.
  unfold digits at 1. cbn [digits_fuel].
  destruct (N.ltb_spec n 10) as [|Hn]; [done|]. f_equal.
  pose proof (N.size_gt n) as Hsz.
  destruct (N.to_nat (N.size n)) as [|k] eqn:Hk.
  { assert (N.size n = 0) as E by lia. rewrite E in Hsz. simpl in Hsz. lia. }
  unfold digits. apply digits_fuel_enough.
  - assert (N.size n = N.succ (N.of_nat k)) as E by lia.
    rewrite E, N.pow_succ_r' in Hsz.
    assert (n / 10 <= n / 2) as Hle by (apply N.div_le_compat_l; lia).
    assert (n / 2 < 2 ^ N.of_nat k) by (apply N.Div0.div_lt_upper_bound; lia).
    lia.
  - rewrite N2Nat.id. apply N.size_gt.
Qed.

Lemma digit_of_ascii (c : N) : ZERO <= c <= 57 -> digit_of c = c - ZERO.
Proof.
  intros Hc. unfold digit_of. rewrite decimal_value_ascii by lia.
  unfold ascii_digit.
  destruct (N.leb_spec 48 c), (N.leb_spec c 57); simpl; first [lia | done].
Qed.

Lemma isdecimal_ascii (c : N) : ZERO <= c <= 57 -> isdecimal c = true.
Proof.
  intros Hc. unfold isdecimal. rewrite decimal_value_ascii by lia.
  unfold ascii_digit.
  destruct (N.leb_spec 48 c), (N.leb_spec c 57); simpl; first [lia | done].
Qed.

Lemma ascii_digits_decimal_text (s : str) : ascii_digits s -> decimal_text s.
Proof.
  intros [Hne Hs]. split; [done|].
  eapply Forall_impl; [exact Hs|]. intros c Hc. by apply isdecimal_ascii.
Qed.

Lemma number_snoc (s : str) (c : char) :
  number (s ++ [c]) = number s * 10 + digit_of c.
Proof. unfold number. by rewrite foldl_snoc. Qed.

Lemma digits_spec (n : N) :
  ascii_digits (digits n) /\ number (digits n) = n.
Proof.
  induction n as [n IH] using (well_founded_induction N.lt_wf_0).
  rewrite digits_unfold. destruct (N.ltb_spec n 10) as [Hn|Hn].
  - split.
    + split; [done|]. constructor; [lia|constructor].
    + unfold number. simpl. rewrite digit_of_ascii by lia. lia.
  - assert (n / 10 < n) as Hlt by (apply N.div_lt; lia).
    destruct (IH (n / 10) Hlt) as [[Hne Hd] Hv].
    pose proof (N.mod_upper_bound n 10 ltac:(lia)) as Hm.
    split.
    + split; [by destruct (digits (n / 10))|].
      apply Forall_app. split; [done|]. constructor; [|constructor].
      clear -Hm. set (r := n mod 10) in *. clearbody r. lia.
    + pose proof (N.div_mod n 10 ltac:(lia)) as Hdm.
      rewrite number_snoc, Hv.
      assert (digit_of (48 + n mod 10) = n mod 10) as ->.
      { clear -Hm. set (r := n mod 10) in *. clearbody r.
        rewrite digit_of_ascii by lia. lia. }
      clear -Hdm. set (r := n mod 10) in *. set (q := n / 10) in *.
      clearbody r q. lia.
Qed.

Lemma digits_length (n : N) (k : nat) :
  n < 10 ^ N.of_nat (S k) -> (length (digits n) <= S k)%nat.
Proof.
  revert n. induction k as [|k IH]; intros n Hn; rewrite digits_unfold.
  - change (10 ^ N.of_nat 1) with 10 in Hn.
    destruct (N.ltb_spec n 10); [done|lia].
  - destruct (N.ltb_spec n 10); [simpl; lia|].
    rewrite length_app. simpl.
    assert (n / 10 < 10 ^ N.of_nat (S k)) as Hlt.
    { rewrite (Nat2N.inj_succ (S k)), N.pow_succ_r' in Hn.
      apply N.Div0.div_lt_upper_bound. lia. }
    specialize (IH _ Hlt). lia.
Qed.

Lemma zero_fill_length (width : nat) (s : str) :
  length (zero_fill width s) = (width `max` length s)%nat.
Proof. unfold zero_fill. rewrite length_app, length_replicate. lia. Qed.

Lemma zero_fill_spec (width : nat) (s : str) :
  ascii_digits s ->
  ascii_digits (zero_fill width s) /\ number (zero_fill width s) = number s.
Proof.
  intros [Hne Hs]. unfold zero_fill.
  generalize (width - length s)%nat as k. intros k. split.
  - split; [destruct (replicate k 48); [done|done]|].
    apply Forall_app. split; [|done].
    apply Forall_replicate. lia.
  - unfold number. rewrite foldl_app. f_equal.
    induction k as [|k IH]; [done|]. simpl.
    rewrite digit_of_ascii by lia. simpl. apply IH.
Qed.

Lemma format_0d_nonneg (width : nat) (n : Z) :
  (0 <= n)%Z ->
  ascii_digits (format_0d width n)
  /\ Z.of_N (number (format_0d width n)) = n
  /\ length (format_0d width n)
     = (width `max` length (digits (Z.to_N n)))%nat.
Proof.
  intros Hn. unfold format_0d. destruct (Z.ltb_spec n 0); [lia|].
  destruct (digits_spec (Z.to_N n)) as [Hd Hv].
  destruct (zero_fill_spec width _ Hd) as [Hd' Hv'].
  split; [done|]. split; [|apply zero_fill_length].
  rewrite Hv', Hv. lia.
Qed.

(** ** Encoding and decoding round trip *)

Lemma format_lrc_time_shape (ms : Z) :
  (0 <= ms)%Z ->
  exists mm ss fff,
    format_lrc_time ms
    = [LBRACKET] ++ mm ++ [COLON] ++ ss ++ [DOT] ++ fff ++ [RBRACKET]
    /\ ascii_digits mm /\ ascii_digits ss /\ ascii_digits fff
    /\ (2 <= length mm)%nat /\ length ss = 2%nat /\ length fff = 3%nat
    /\ Z.of_N (number mm) = (ms / 60000)%Z
    /\ Z.of_N (number ss) = (ms mod 60000 / 1000)%Z
    /\ Z.of_N (number fff) = (ms mod 1000)%Z.
Proof.
  intros Hms. unfold format_lrc_time.
  assert (0 <= ms / 60000)%Z as H1 by (apply Z.div_pos; lia).
  assert (0 <= ms mod 60000 / 1000 < 60)%Z as H2.
  { pose proof (Z.mod_pos_bound ms 60000 ltac:(lia)).
    split; [apply Z.div_pos; lia|].
    apply Z.div_lt_upper_bound; lia. }
  assert (0 <= ms mod 1000 < 1000)%Z as H3 by (apply Z.mod_pos_bound; lia).
  destruct (format_0d_nonneg 2 _ H1) as (Hm & Hmv & Hml).
  destruct (format_0d_nonneg 2 _ (proj1 H2)) as (Hs & Hsv & Hsl).
  destruct (format_0d_nonneg 3 _ (proj1 H3)) as (Hf & Hfv & Hfl).
  eexists _, _, _. split; [reflexivity|].
  repeat split; try apply Hm; try apply Hs; try apply Hf; try done.
  - rewrite Hml. lia.
  - rewrite Hsl.
    pose proof (digits_length (Z.to_N (ms mod 60000 / 1000)) 1) as Hl.
    change (10 ^ N.of_nat 2) with 100 in Hl. lia.
  - rewrite Hfl.
    pose proof (digits_length (Z.to_N (ms mod 1000)) 2) as Hl.
    change (10 ^ N.of_nat 3) with 1000 in Hl. lia.
Qed.

Lemma parse_format_lrc_time (ms : Z) :
  (0 <= ms)%Z -> parse_lrc_time (format_lrc_time ms) = Return ms.
Proof.
  intros Hms.
  destruct (format_lrc_time_shape ms Hms)
    as (mm & ss & fff & -> & Hm & Hs & Hf & _ & _ & Hfl & Hmv & Hsv & Hfv).
  assert (mm ++ [58] ++ ss ++ [46] ++ fff ++ [93]
          = timecode mm ss (Some fff) ++ [93]) as ->.
  { unfold timecode. rewrite <- !app_assoc. simpl. by rewrite <- app_assoc. }
  rewrite parse_lrc_time_bracketed.
  - f_equal. unfold timecode_value, fraction_millis.
    destruct fff as [|a [|b [|c [|d fff]]]]; try done. simpl length.
    change (3 =? 2)%nat with false. cbn [take].
    rewrite !N2Z.inj_add, !N2Z.inj_mul, Hmv, Hsv, Hfv.
    clear. Z.to_euclidean_division_equations. lia.
  - constructor; [by left|constructor].
  - constructor; [by right|constructor].
  - repeat split; try apply ascii_digits_decimal_text; try done.
    all: try apply Hm; try apply Hs; try apply Hf.
Qed.

(** C2. For 0 <= ms < 6000000000, decoding the encoding of [ms] gives [ms]
    back, and the encoding is [[MM:SS.mmm]] in ASCII digits: the minutes are
    all of [ms / 60000] (at least two digits, never wrapped at 60), the
    seconds take exactly two digits and the milliseconds exactly three. *)
Theorem format_lrc_time_round_trip (ms : Z) :
  (0 <= ms < 6000000000)%Z ->
  parse_lrc_time (format_lrc_time ms) = Return ms
  /\ exists mm ss fff,
       format_lrc_time ms
       = [LBRACKET] ++ mm ++ [COLON] ++ ss ++ [DOT] ++ fff ++ [RBRACKET]
       /\ ascii_digits mm /\ ascii_digits ss /\ ascii_digits fff
       /\ (2 <= length mm)%nat /\ length ss = 2%nat /\ length fff = 3%nat
       /\ Z.of_N (number mm) = (ms / 60000)%Z
       /\ Z.of_N (number ss) = (ms mod 60000 / 1000)%Z
       /\ Z.of_N (number fff) = (ms mod 1000)%Z.
Proof.
  intros [Hms _]. split.
  - by apply parse_format_lrc_time.
  - by apply format_lrc_time_shape.
Qed.

Lemma format_lrc_time_round_trip_example :
  (0 <= 90500 < 6000000000)%Z
  /\ parse_lrc_time (format_lrc_time 90500) = Return 90500%Z
  /\ format_lrc_time 90500 = utf8 "[01:30.500]".
Proof.
  assert (0 <= 90500 < 6000000000)%Z as H by lia.
  split; [exact H|]. split.
  - exact (proj1 (format_lrc_time_round_trip 90500 H)).
  - reflexivity.
Defined.

(** ** Matching the tag pattern *)

Lemma run_length_take (a : atom) (s : str) :
  Forall (fun c => atom_matches a c = true) (take (run_length a s) s).
Proof.
  induction s as [|c s IH]; simpl; [constructor|].
  destruct (atom_matches a c) eqn:Hc; simpl; [|constructor].
  by constructor.
Qed.

Lemma run_length_drop (a : atom) (s : str) (c : char) (rest : str) :
  drop (run_length a s) s = c :: rest -> atom_matches a c = false.
Proof.
  induction s as [|d s IH]; simpl; [done|].
  destruct (atom_matches a d) eqn:Hd; simpl; [done|].
  by intros [= <- _].
Qed.

Lemma run_length_app (a : atom) (d rest : str) :
  Forall (fun c => atom_matches a c = true) d ->
  match rest with [] => True | c :: _ => atom_matches a c = false end ->
  run_length a (d ++ rest) = length d.
Proof.
  intros Hd Hrest. induction Hd as [|c d Hc _ IH]; simpl.
  - destruct rest as [|c rest]; simpl; [done|]. by rewrite Hrest.
  - by rewrite Hc, IH.
Qed.

Lemma drop_in_run (a : atom) (s : str) (k : nat) :
  (k < run_length a s)%nat ->
  exists e rest, drop k s = e :: rest /\ atom_matches a e = true.
Proof.
  revert k. induction s as [|d s IH]; intros k Hk; simpl in Hk; [lia|].
  destruct (atom_matches a d) eqn:Hd; [|lia].
  destruct k as [|k].
  - exists d, s. by rewrite drop_0.
  - apply (IH k). lia.
Qed.

(** Giving characters back cannot help when the next item is a literal that
    the repeated atom does not match. *)
Lemma give_back_literal (a : atom) (c : char) (p : list item) (s : str)
    (k : nat) :
  atom_matches a c = false -> (k < run_length a s)%nat ->
  give_back (match_here (One (Lit c) :: p)) s k = None.
Proof.
  intros Hc. induction k as [|k IH]; intros Hk; [done|].
  cbn [give_back]. rewrite IH by lia.
  destruct (drop_in_run a s (S k) Hk) as (e & rest & -> & He).
  cbn [match_here atom_matches].
  destruct (N.eqb_spec e c) as [->|_]; [congruence|done].
Qed.

Lemma match_here_one (a : atom) (p : list item) (c : char) (s : str) :
  match_here (One a :: p) (c :: s)
  = if atom_matches a c then S <$> match_here p s else None.
Proof. reflexivity. Qed.

Lemma match_here_repeat (a : atom) (p : list item) (s : str) :
  match_here (OneOrMore a :: p) s
  = give_back (match_here p) s (run_length a s).
Proof. reflexivity. Qed.

Lemma give_back_S (rest_match : str -> option nat) (s : str) (k : nat) :
  give_back rest_match s (S k)
  = match rest_match (drop (S k) s) with
    | Some n => Some (S k + n)%nat
    | None => give_back rest_match s k
    end.
Proof. reflexivity. Qed.

Lemma match_here_repeat_literal (a : atom) (c : char) (p : list item)
    (s : str) :
  atom_matches a c = false ->
  match_here (OneOrMore a :: One (Lit c) :: p) s
  = match run_length a s with
    | O => None
    | S k =>
        match drop (S k) s with
        | c' :: rest =>
            if c' =? c then (fun n => S k + S n)%nat <$> match_here p rest
            else None
        | [] => None
        end
    end.
Proof.
  intros Hc. rewrite match_here_repeat.
  destruct (run_length a s) as [|k] eqn:Hrun; [done|].
  rewrite give_back_S, (give_back_literal a c p s k Hc) by lia.
  destruct (drop (S k) s) as [|c' rest]; [done|].
  rewrite match_here_one. cbn [atom_matches]. destruct (c' =? c); [|done].
  by destruct (match_here p rest).
Qed.

(** What [\d+c], followed by the rest of a pattern, matches. *)
Lemma match_here_decimals_literal (c : char) (p : list item) (s : str)
    (n : nat) :
  isdecimal c = false ->
  match_here (OneOrMore AnyDecimal :: One (Lit c) :: p) s = Some n <->
  exists d rest n',
    decimal_text d /\ s = d ++ c :: rest /\ match_here p rest = Some n'
    /\ n = (length d + S n')%nat.
Proof.
  intros Hc. rewrite (match_here_repeat_literal AnyDecimal c p s Hc). split.
  - destruct (run_length AnyDecimal s) as [|k] eqn:Hrun; [done|].
    destruct (drop (S k) s) as [|c' rest] eqn:Hdrop; [done|].
    destruct (N.eqb_spec c' c) as [->|_]; [|done].
    destruct (match_here p rest) as [n'|] eqn:Hrest; [|done].
    intros [= <-]. exists (take (S k) s), rest, n'.
    pose proof (run_length_take AnyDecimal s) as Htake. rewrite Hrun in Htake.
    assert (length (take (S k) s) = S k) as Hlen.
    { rewrite length_take. apply (f_equal length) in Hdrop.
      rewrite length_drop in Hdrop. simpl in Hdrop. lia. }
    repeat split; try done.
    + intros E. rewrite E in Hlen. done.
    + by rewrite <- Hdrop, take_drop.
    + by rewrite Hlen.
  - intros (d & rest & n' & [Hne Hd] & -> & Hrest & ->).
    rewrite run_length_app by done.
    destruct d as [|e d]; [done|]. cbn [length].
    change (S (length d)) with (length (e :: d)).
    rewrite drop_app_length, N.eqb_refl, Hrest. done.
Qed.

Lemma timecode_app (m sec f rest : str) :
  timecode m sec (Some f) ++ rest = m ++ COLON :: sec ++ DOT :: f ++ rest.
Proof.
  unfold timecode. rewrite <- app_assoc. simpl. by rewrite <- app_assoc.
Qed.

Lemma timecode_length (m sec f : str) :
  length (timecode m sec (Some f))
  = (length m + S (length sec + S (length f)))%nat.
Proof. unfold timecode. rewrite length_app. simpl. by rewrite length_app. Qed.

Lemma match_here_TIME_PATTERN (s : str) (n : nat) :
  match_here TIME_PATTERN s = Some n <->
  exists m sec f rest,
    well_formed m sec (Some f)
    /\ s = LBRACKET :: timecode m sec (Some f) ++ RBRACKET :: rest
    /\ n = S (length (timecode m sec (Some f) ++ [RBRACKET])).
Proof.
  unfold TIME_PATTERN. split.
  - destruct s as [|c s]; [done|]. rewrite match_here_one.
    cbn [atom_matches].
    destruct (N.eqb_spec c 91) as [->|_]; [|done].
    match goal with
    | |- context [match_here ?p s] => destruct (match_here p s) as [n1|] eqn:H1
    end; [|done].
    intros [= <-].
    apply match_here_decimals_literal in H1
      as (m & s1 & n2 & Hm & -> & H2 & ->); [|done].
    apply match_here_decimals_literal in H2
      as (sec & s2 & n3 & Hsec & -> & H3 & ->); [|done].
    apply match_here_decimals_literal in H3
      as (f & s3 & n4 & Hf & -> & H4 & ->); [|done].
    injection H4 as <-.
    exists m, sec, f, s3. split; [done|]. split.
    + by rewrite timecode_app.
    + rewrite length_app, timecode_length. simpl. lia.
  - intros (m & sec & f & rest & (Hm & Hsec & Hf) & -> & ->).
    rewrite match_here_one. cbn [atom_matches]. rewrite N.eqb_refl.
    assert (match_here
              [OneOrMore AnyDecimal; One (Lit 58); OneOrMore AnyDecimal;
               One (Lit 46); OneOrMore AnyDecimal; One (Lit 93)]
              (timecode m sec (Some f) ++ 93 :: rest)
            = Some (length (timecode m sec (Some f) ++ [93]))) as ->; [|done].
    rewrite timecode_app, length_app, timecode_length.
    apply match_here_decimals_literal; [done|].
    eexists m, _, _. split; [done|]. split; [reflexivity|]. split.
    + apply match_here_decimals_literal; [done|].
      eexists sec, _, _. split; [done|]. split; [reflexivity|].
      split; [|reflexivity].
      apply match_here_decimals_literal; [done|].
      eexists f, rest, _. split; [done|]. split; [reflexivity|].
      split; reflexivity.
    + simpl. lia.
Qed.

(** ** Scanning a line for tags *)

Lemma scan_skip (p : list item) (k : nat) (s : str) :
  scan p k s = scan p O (drop k s).
Proof.
  revert k. induction s as [|c s IH]; intros [|k]; try done.
  simpl. apply IH.
Qed.

Lemma scan_matched (p : list item) (w rest : str) :
  w <> [] -> match_here p (w ++ rest) = Some (length w) ->
  scan p O (w ++ rest) = Matched w :: scan p O rest.
Proof.
  intros Hw Hm. destruct w as [|c w]; [done|].
  change ((c :: w) ++ rest) with (c :: (w ++ rest)) in *.
  cbn [scan]. rewrite Hm. cbn [length]. f_equal.
  - f_equal. change (take (S (length w)) (c :: w ++ rest))
      with (c :: take (length w) (w ++ rest)).
    by rewrite take_app_length.
  - by rewrite scan_skip, drop_app_length.
Qed.

Lemma scan_unmatched (p : list item) (c : char) (s : str) :
  match_here p (c :: s) = None ->
  scan p O (c :: s) = Unmatched c :: scan p O s.
Proof. intros Hm. cbn [scan]. by rewrite Hm. Qed.

Lemma group1_tag (m sec f : str) : group1 (tag m sec f) = timecode m sec (Some f).
Proof. unfold group1, tag. simpl. apply removelast_last. Qed.

Lemma match_here_tag (m sec f rest : str) :
  well_formed m sec (Some f) ->
  match_here TIME_PATTERN (tag m sec f ++ rest) = Some (length (tag m sec f)).
Proof.
  intros Hwf. apply match_here_TIME_PATTERN.
  exists m, sec, f, rest. split; [done|]. split; [|done].
  unfold tag. simpl. by rewrite <- app_assoc.
Qed.

Lemma scan_tag (m sec f rest : str) :
  well_formed m sec (Some f) ->
  scan TIME_PATTERN O (tag m sec f ++ rest)
  = Matched (tag m sec f) :: scan TIME_PATTERN O rest.
Proof. intros Hwf. apply scan_matched; [done|]. by apply match_here_tag. Qed.

(** Every match of the pattern is a tag. *)
Lemma scan_TIME_PATTERN_matched (s : str) (k : nat) (w : str) :
  Matched w ∈ scan TIME_PATTERN k s ->
  exists m sec f, well_formed m sec (Some f) /\ w = tag m sec f.
Proof.
  revert k. induction s as [|c s IH]; intros k Hin.
  - by apply elem_of_nil in Hin.
  - destruct k as [|k]; [|by apply (IH k)].
    cbn [scan] in Hin.
    destruct (match_here TIME_PATTERN (c :: s)) as [[|n]|] eqn:Hm.
    + apply elem_of_cons in Hin as [Hin|Hin]; [done|by apply (IH O)].
    + apply elem_of_cons in Hin as [Hin|Hin]; [|by apply (IH n)].
      injection Hin as ->.
      apply match_here_TIME_PATTERN in Hm
        as (m & sec & f & rest & Hwf & Hs & Hn).
      exists m, sec, f. split; [done|].
      injection Hs as -> ->. injection Hn as ->. unfold tag. f_equal.
      change (93 :: rest) with ([93] ++ rest).
      by rewrite app_assoc, take_app_length.
    + apply elem_of_cons in Hin as [Hin|Hin]; [done|by apply (IH O)].
Qed.

Lemma findall_TIME_PATTERN (s tm : str) :
  tm ∈ findall TIME_PATTERN s ->
  exists m sec f, well_formed m sec (Some f) /\ tm = timecode m sec (Some f).
Proof.
  unfold findall. intros Hin. apply list_elem_of_omap in Hin as (x & Hx & Hg).
  destruct x as [c|w]; [done|]. injection Hg as <-.
  apply scan_TIME_PATTERN_matched in Hx as (m & sec & f & Hwf & ->).
  exists m, sec, f. split; [done|apply group1_tag].
Qed.

(** Every text between brackets that the pattern finds decodes. *)
Lemma parse_lrc_time_timecode (m sec : str) (f : option str) :
  well_formed m sec f ->
  parse_lrc_time (timecode m sec f) = Return (timecode_value m sec f).
Proof.
  intros Hwf.
  pose proof (parse_lrc_time_body_timecode m sec f Hwf) as Hbody.
  unfold parse_lrc_time, strip_chars.
  rewrite strip_by_trimmed by (by apply timecode_trimmed).
  by rewrite Hbody.
Qed.

(** Scanning pieces of a line that carry no tag. *)
Lemma scan_no_match (s : str) :
  findall TIME_PATTERN s = [] -> scan TIME_PATTERN O s = map Unmatched s.
Proof.
  unfold findall. induction s as [|c s IH]; [done|]. cbn [scan].
  destruct (match_here TIME_PATTERN (c :: s)) as [[|n]|] eqn:Hm;
    cbn [omap map]; try done; intros H; f_equal; by apply IH.
Qed.

Lemma scan_no_bracket (s : str) :
  LBRACKET ∉ s -> scan TIME_PATTERN O s = map Unmatched s.
Proof.
  induction s as [|c s IH]; intros Hs; [done|].
  apply not_elem_of_cons in Hs as [Hc Hs].
  rewrite scan_unmatched.
  - simpl. f_equal. by apply IH.
  - unfold TIME_PATTERN. rewrite match_here_one. cbn [atom_matches].
    destruct (N.eqb_spec c 91); [congruence|done].
Qed.

Lemma findall_app_tag (m sec f rest : str) :
  well_formed m sec (Some f) ->
  findall TIME_PATTERN (tag m sec f ++ rest)
  = timecode m sec (Some f) :: findall TIME_PATTERN rest.
Proof.
  intros Hwf. unfold findall. rewrite scan_tag by done.
  cbn [omap list_omap]. by rewrite group1_tag.
Qed.

Lemma sub_app_tag (repl : str) (m sec f rest : str) :
  well_formed m sec (Some f) ->
  sub TIME_PATTERN repl (tag m sec f ++ rest)
  = repl ++ sub TIME_PATTERN repl rest.
Proof. intros Hwf. unfold sub. by rewrite scan_tag. Qed.

Lemma sub_no_match (repl : str) (s : str) :
  findall TIME_PATTERN s = [] -> sub TIME_PATTERN repl s = s.
Proof.
  intros H. unfold sub. rewrite scan_no_match by done.
  induction s as [|c s IH]; [done|]. simpl. f_equal.
  apply IH. unfold findall in *. cbn [scan] in H.
  destruct (match_here TIME_PATTERN (c :: s)) as [[|n]|]; try done.
Qed.

Lemma findall_no_bracket (s : str) :
  LBRACKET ∉ s -> findall TIME_PATTERN s = [].
Proof.
  intros Hs. unfold findall. rewrite scan_no_bracket by done.
  clear Hs. induction s as [|c s IH]; [done|]. exact IH.
Qed.

(** ** Running the parser *)

Lemma Py_bind_ret {A B} (a : A) (f : A -> Py B) :
  (mkPy (Return a) [] ≫= f) = f a.
Proof. unfold mbind, Py_bind. simpl. by destruct (f a). Qed.

(** A loop whose body always appends to the accumulator. *)
Lemma for_each_append {X E} (xs : list X) (body : X -> list E -> Py (list E))
    (g : X -> list E) :
  (forall x acc, x ∈ xs -> body x acc = mkPy (Return (acc ++ g x)) []) ->
  forall acc, for_each xs body acc = mkPy (Return (acc ++ flat_map g xs)) [].
Proof.
  induction xs as [|x xs IH]; intros Hbody acc; simpl.
  - by rewrite app_nil_r.
  - rewrite Hbody by (by left). rewrite Py_bind_ret, IH.
    + by rewrite <- app_assoc.
    + intros y acc' Hy. apply Hbody. by right.
Qed.

Lemma flat_map_singleton {X E} (g : X -> E) (xs : list X) :
  flat_map (fun x => [g x]) xs = g <$> xs.
Proof. induction xs as [|x xs IH]; [done|]. simpl. by rewrite IH. Qed.

Lemma parse_lrc_time_found (line time_match : str) :
  time_match ∈ findall TIME_PATTERN line ->
  parse_lrc_time time_match = Return (decoded time_match).
Proof.
  intros Hin. apply findall_TIME_PATTERN in Hin as (m & sec & f & Hwf & ->).
  unfold decoded. by rewrite parse_lrc_time_timecode.
Qed.

Lemma add_time_match_found (content line time_match : str)
    (lyrics : list lyric) :
  time_match ∈ findall TIME_PATTERN line ->
  add_time_match content time_match lyrics
  = mkPy (Return (lyrics ++ [Lyric (decoded time_match) content])) [].
Proof.
  intros Hin. unfold add_time_match, lift.
  by rewrite (parse_lrc_time_found line).
Qed.

Lemma add_line_lyrics (line : str) (lyrics : list lyric) :
  add_line line lyrics = mkPy (Return (lyrics ++ line_lyrics line)) [].
Proof.
  unfold add_line, line_lyrics.
  destruct (strip line) as [|c l] eqn:Hline.
  - simpl. by rewrite app_nil_r.
  - cbn [nonempty negb].
    destruct (findall TIME_PATTERN (c :: l)) as [|tm tms] eqn:Hfind.
    + simpl. destruct (nonempty _); by rewrite app_nil_r.
    + destruct (nonempty (strip (sub TIME_PATTERN [] (c :: l)))).
      * rewrite (for_each_append _ _
                   (fun tm => [Lyric (decoded tm)
                                 (strip (sub TIME_PATTERN [] (c :: l)))])).
        { by rewrite flat_map_singleton. }
        intros x acc Hx. apply (add_time_match_found _ (c :: l)).
        by rewrite Hfind.
      * unfold mret, Py_ret. by rewrite app_nil_r.
Qed.

Lemma for_each_add_line (lines : list str) (lyrics : list lyric) :
  for_each lines add_line lyrics
  = mkPy (Return (lyrics ++ flat_map line_lyrics lines)) [].
Proof.
  apply for_each_append. intros line acc _. apply add_line_lyrics.
Qed.

Lemma strip_nil : strip [] = [].
Proof. reflexivity. Qed.

Lemma parse_lrc_content_pure (text : str) :
  parse_lrc_content text = mkPy (Return (sort_by time (text_lyrics text))) [].
Proof.
  unfold parse_lrc_content, text_lyrics.
  destruct (negb (nonempty text) || negb (nonempty (strip text))) eqn:Hblank.
  - assert (strip text = []) as ->.
    { destruct text as [|c text]; [done|]. simpl in Hblank.
      by destruct (strip (c :: text)). }
    reflexivity.
  - rewrite for_each_add_line. by rewrite Py_bind_ret.
Qed.

Lemma parsed_eq (text : str) : parsed text = sort_by time (text_lyrics text).
Proof. unfold parsed. by rewrite parse_lrc_content_pure. Qed.

(** ** The stable sort *)

Section Sort.
Context {A : Type} (key : A -> Z).

Lemma insert_by_Permutation (x : A) (l : list A) :
  insert_by key x l ≡ₚ x :: l.
Proof.
  induction l as [|y l IH]; simpl; [done|].
  destruct (key x <=? key y)%Z; [done|].
  rewrite IH. apply Permutation_swap.
Qed.

Lemma sort_by_Permutation (l : list A) : sort_by key l ≡ₚ l.
Proof.
  induction l as [|x l IH]; simpl; [done|].
  by rewrite insert_by_Permutation, IH.
Qed.

Lemma insert_by_StronglySorted (x : A) (l : list A) :
  StronglySorted (by_key key) l -> StronglySorted (by_key key) (insert_by key x l).
Proof.
  induction 1 as [|y l Hl IH Hy]; simpl.
  - repeat constructor.
  - destruct (Z.leb_spec (key x) (key y)) as [Hxy|Hxy].
    + constructor; [by constructor|]. constructor; [done|].
      eapply Forall_impl; [exact Hy|]. unfold by_key. intros z Hz. lia.
    + constructor; [done|].
      rewrite insert_by_Permutation. constructor; [|done].
      unfold by_key. lia.
Qed.

Lemma sort_by_StronglySorted (l : list A) :
  StronglySorted (by_key key) (sort_by key l).
Proof.
  induction l as [|x l IH]; simpl; [constructor|].
  by apply insert_by_StronglySorted.
Qed.

(** Stability: entries with equal keys keep their relative order. *)
Lemma insert_by_filter (k : Z) (x : A) (l : list A) :
  filter (fun y => key y = k) (insert_by key x l)
  = filter (fun y => key y = k) (x :: l).
Proof.
  induction l as [|y l IH]; simpl; [done|].
  destruct (Z.leb_spec (key x) (key y)) as [Hxy|Hxy]; [done|].
  rewrite filter_cons, IH, !filter_cons.
  destruct (decide (key y = k)), (decide (key x = k)); try done. lia.
Qed.

Lemma sort_by_stable (k : Z) (l : list A) :
  filter (fun y => key y = k) (sort_by key l)
  = filter (fun y => key y = k) l.
Proof.
  induction l as [|x l IH]; simpl; [done|].
  by rewrite insert_by_filter, !filter_cons, IH.
Qed.
End Sort.

(** ** The timestamp-to-text association *)

Lemma time_dict_snoc (lyrics : list lyric) (l : lyric) :
  time_dict (lyrics ++ [l]) = <[time l := content l]> (time_dict lyrics).
Proof. unfold time_dict. by rewrite foldl_snoc. Qed.

(** Later entries overwrite earlier ones. *)
Lemma time_dict_lookup (lyrics : list lyric) (t : Z) :
  time_dict lyrics !! t
  = content <$> last (filter (fun l => time l = t) lyrics).
Proof.
  induction lyrics as [|l lyrics IH] using rev_ind; [done|].
  rewrite time_dict_snoc, filter_app, filter_cons, filter_nil.
  destruct (decide (time l = t)) as [<-|Hne].
  - by rewrite lookup_insert_eq, last_snoc.
  - by rewrite lookup_insert_ne, app_nil_r.
Qed.

Lemma time_dict_lookup_Some (lyrics : list lyric) (t : Z) (c : str) :
  time_dict lyrics !! t = Some c -> Lyric t c ∈ lyrics.
Proof.
  rewrite time_dict_lookup.
  destruct (last (filter (fun l => time l = t) lyrics)) as [l|] eqn:Hlast;
    [|done].
  intros [= <-]. apply last_Some_elem_of in Hlast.
  apply list_elem_of_filter in Hlast as [<- Hin]. by destruct l.
Qed.

Lemma elem_of_dom_time_dict (lyrics : list lyric) (t : Z) :
  t ∈ dom (time_dict lyrics) <-> exists l, l ∈ lyrics /\ time l = t.
Proof.
  rewrite elem_of_dom, time_dict_lookup. split.
  - intros [c Hc].
    destruct (last (filter (fun l => time l = t) lyrics)) as [l|] eqn:Hlast;
      [|done].
    apply last_Some_elem_of in Hlast.
    apply list_elem_of_filter in Hlast as [<- Hin]. by exists l.
  - intros (l & Hin & Ht).
    destruct (last (filter (fun l => time l = t) lyrics)) as [l'|] eqn:Hlast.
    + by eexists.
    + apply last_None in Hlast.
      assert (l ∈ filter (fun l => time l = t) lyrics) as Hl
        by (by apply list_elem_of_filter).
      rewrite Hlast in Hl. by apply elem_of_nil in Hl.
Qed.

Lemma dom_time_dict (lyrics : list lyric) :
  dom (time_dict lyrics) = list_to_set (time <$> lyrics).
Proof.
  apply set_eq. intros t.
  rewrite elem_of_dom_time_dict, elem_of_list_to_set, list_elem_of_fmap.
  split; intros (l & H1 & H2); exists l; done.
Qed.

(** ** The sorted union of the timestamps *)

Lemma elem_of_sorted_union (a b : gset Z) (t : Z) :
  t ∈ sorted_union a b <-> t ∈ a \/ t ∈ b.
Proof.
  unfold sorted_union.
  rewrite merge_sort_Permutation, elem_of_elements, elem_of_union. done.
Qed.

Lemma length_sorted_union (a b : gset Z) :
  length (sorted_union a b) = size (a ∪ b).
Proof. unfold sorted_union. by rewrite merge_sort_Permutation. Qed.

Lemma StronglySorted_le_NoDup (l : list Z) :
  StronglySorted Z.le l -> NoDup l -> StronglySorted Z.lt l.
Proof.
  induction 1 as [|x l Hl IH Hx]; intros Hnd; [constructor|].
  apply NoDup_cons in Hnd as [Hx' Hnd]. constructor; [by apply IH|].
  apply Forall_forall. intros y Hy. rewrite Forall_forall in Hx.
  specialize (Hx y Hy). assert (x <> y) by (intros ->; done). lia.
Qed.

Lemma sorted_union_StronglySorted (a b : gset Z) :
  StronglySorted Z.lt (sorted_union a b).
Proof.
  apply StronglySorted_le_NoDup.
  - apply Sorted_StronglySorted; [apply _|].
    unfold sorted_union. apply Sorted_merge_sort. apply _.
  - unfold sorted_union. rewrite merge_sort_Permutation. apply NoDup_elements.
Qed.

Lemma size_union_le (a b : gset Z) :
  (size (a ∪ b) <= size a + size b)%nat
  /\ (size (a ∪ b) = (size a + size b)%nat <-> a ## b).
Proof.
  rewrite size_union_alt.
  assert (b ∖ a ⊆ b) as Hsub.
  { intros x Hx. by apply elem_of_difference in Hx as [? _]. }
  pose proof (subseteq_size _ _ Hsub) as Hle. split; [lia|]. split.
  - intros Heq.
    assert (b ∖ a = b) as E by (apply set_subseteq_size_eq; [done|lia]).
    intros x Ha Hb. rewrite <- E in Hb.
    by apply elem_of_difference in Hb as [_ ?].
  - intros Hdisj. assert (b ∖ a = b) as ->; [|done].
    apply set_eq. intros x. rewrite elem_of_difference.
    split; [by intros [? _]|]. intros Hb. split; [done|].
    intros Ha. by apply (Hdisj x).
Qed.

(** ** Merging *)

(** Every entry of a parsed document has a non-empty text. *)
Lemma line_lyrics_content (line : str) (l : lyric) :
  l ∈ line_lyrics line -> content l <> [].
Proof.
  unfold line_lyrics.
  destruct (nonempty (strip (sub TIME_PATTERN [] (strip line)))) eqn:Hne.
  - intros Hin. apply list_elem_of_fmap in Hin as (tm & -> & _). simpl.
    by destruct (strip (sub TIME_PATTERN [] (strip line))).
  - intros Hin. by apply elem_of_nil in Hin.
Qed.

Lemma parsed_content (text : str) (l : lyric) :
  l ∈ parsed text -> content l <> [].
Proof.
  rewrite parsed_eq, sort_by_Permutation. unfold text_lyrics.
  intros Hin. apply list_elem_of_In, in_flat_map in Hin as (line & _ & Hin).
  apply (line_lyrics_content line). by apply list_elem_of_In.
Qed.

Lemma association_nonempty (text : str) (t : Z) (c : str) :
  association text !! t = Some c -> c <> [].
Proof.
  intros H. apply time_dict_lookup_Some in H.
  by apply parsed_content in H.
Qed.

Lemma add_merged_line_present (original translated : gmap Z (list N))
    (t : Z) (merged_lines : list str) :
  (forall c, original !! t = Some c -> c <> []) ->
  (forall c, translated !! t = Some c -> c <> []) ->
  t ∈ dom original \/ t ∈ dom translated ->
  add_merged_line original translated t merged_lines
  = mkPy (Return (merged_lines ++ [merged_line original translated t])) [].
Proof.
  intros Ho Ht Hin. unfold add_merged_line, merged_line.
  rewrite !elem_of_dom in Hin.
  destruct (original !! t) as [p|] eqn:Hp, (translated !! t) as [s|] eqn:Hs;
    simpl.
  - destruct p as [|a p]; [by destruct (Ho [])|].
    destruct s as [|b s]; [by destruct (Ht [])|]. done.
  - destruct p as [|a p]; [by destruct (Ho [])|]. done.
  - destruct s as [|b s]; [by destruct (Ht [])|]. done.
  - destruct Hin as [[? ?]|[? ?]]; done.
Qed.

Lemma merge_lyrics_pure (original_text translated_text : str) :
  merge_lyrics original_text translated_text
  = mkPy (Return
            (merged_line (association original_text)
                         (association translated_text)
             <$> sorted_union (dom (association original_text))
                              (dom (association translated_text)))) [].
Proof.
  unfold merge_lyrics. rewrite !parse_lrc_content_pure, !Py_bind_ret.
  unfold association. rewrite !parsed_eq.
  set (od := time_dict (sort_by time (text_lyrics original_text))).
  set (td := time_dict (sort_by time (text_lyrics translated_text))).
  rewrite (for_each_append _ _ (fun t => [merged_line od td t])).
  - by rewrite flat_map_singleton.
  - intros t acc Hin. apply elem_of_sorted_union in Hin.
    apply add_merged_line_present; [| |done].
    + intros c Hc. apply (association_nonempty original_text t).
      unfold association. by rewrite parsed_eq.
    + intros c Hc. apply (association_nonempty translated_text t).
      unfold association. by rewrite parsed_eq.
Qed.

Lemma dom_association (text : str) : dom (association text) = timestamps text.
Proof. apply dom_time_dict. Qed.




(** C4. The end-to-end example: two lines, each made of the encoded time,
    the original text, [ / ] and the translated text. *)
Theorem merge_lyrics_example :
  merge_lyrics
    (utf8 "[00:01.00]Hello world" ++ [NEWLINE] ++ utf8 "[00:05.00]This is a test")
    (utf8 "[00:01.00]你好世界" ++ [NEWLINE] ++ utf8 "[00:05.00]这是一个测试")
  = mkPy (Return [ utf8 "[00:01.000] Hello world / 你好世界";
                   utf8 "[00:05.000] This is a test / 这是一个测试" ]) []
  /\ utf8 "[00:01.000] Hello world / 你好世界"
     = format_lrc_time 1000 ++ utf8 " " ++ utf8 "Hello world"
         ++ utf8 " / " ++ utf8 "你好世界"
  /\ utf8 "[00:05.000] This is a test / 这是一个测试"
     = format_lrc_time 5000 ++ utf8 " " ++ utf8 "This is a test"
         ++ utf8 " / " ++ utf8 "这是一个测试".
Proof. repeat split; by vm_compute. Qed.

(** ** Duplicate timestamps within one text *)


Example duplicate_timestamp_example :
  merge_lyrics
    (utf8 "[00:01.00]first" ++ [NEWLINE] ++ utf8 "[00:00.50]intro"
       ++ [NEWLINE] ++ utf8 "[00:01.00]second") []
  = mkPy (Return [utf8 "[00:00.500] intro"; utf8 "[00:01.000] second"]) [].
Proof. by vm_compute. Qed.

(** ** Physical lines *)

Lemma join_cons (sep : char) (piece : str) (pieces : list str) :
  pieces <> [] ->
  join sep (piece :: pieces) = piece ++ sep :: join sep pieces.
Proof. by destruct pieces. Qed.

Lemma join_snoc (sep : char) (pieces : list str) (piece : str) :
  pieces <> [] ->
  join sep (pieces ++ [piece]) = join sep pieces ++ sep :: piece.
Proof.
  induction pieces as [|p pieces IH]; intros Hne; [done|].
  destruct pieces as [|p' pieces]; [done|].
  change ((p :: p' :: pieces) ++ [piece])
    with (p :: ((p' :: pieces) ++ [piece])).
  rewrite join_cons by done. rewrite IH by done.
  rewrite (join_cons sep p (p' :: pieces)) by done. by rewrite <- app_assoc.
Qed.

Lemma join_split (sep : char) (s : str) : join sep (split sep s) = s.
Proof.
  induction s as [|c s IH]; [done|]. simpl.
  destruct (N.eqb_spec c sep) as [->|Hc].
  - rewrite join_cons by apply split_nonempty. by rewrite IH.
  - pose proof (split_nonempty sep s) as Hne.
    destruct (split sep s) as [|piece pieces]; [done|].
    destruct pieces as [|piece' pieces].
    + simpl in *. by rewrite IH.
    + rewrite join_cons in IH by done. rewrite join_cons by done.
      by rewrite <- IH.
Qed.

Lemma split_Forall (sep : char) (s : str) :
  Forall (fun piece => sep ∉ piece) (split sep s).
Proof.
  induction s as [|c s IH]; simpl.
  - constructor; [apply not_elem_of_nil|constructor].
  - destruct (N.eqb_spec c sep) as [->|Hc].
    + constructor; [apply not_elem_of_nil|done].
    + destruct (split sep s) as [|piece pieces].
      * constructor; [|constructor].
        apply not_elem_of_cons. split; [done|apply not_elem_of_nil].
      * apply Forall_cons in IH as [Hp Hps]. constructor; [|done].
        by apply not_elem_of_cons.
Qed.

Lemma join_rev (sep : char) (pieces : list str) :
  join sep (rev (@rev N <$> pieces)) = rev (join sep pieces).
Proof.
  induction pieces as [|piece pieces IH]; [done|].
  destruct pieces as [|piece' pieces].
  - done.
  - rewrite join_cons by done. cbn [fmap list_fmap rev] in *.
    rewrite join_snoc by (by destruct (rev (@rev N <$> pieces))).
    rewrite IH. rewrite rev_app_distr. simpl. by rewrite <- app_assoc.
Qed.

Lemma split_rev (sep : char) (s : str) :
  split sep (rev s) = rev (@rev N <$> split sep s).
Proof.
  rewrite <- (join_split sep s) at 1. rewrite <- join_rev.
  apply split_join.
  - pose proof (split_nonempty sep s) as Hne. intros E.
    apply (f_equal length) in E. rewrite length_rev, length_fmap in E.
    by destruct (split sep s).
  - apply Forall_rev, Forall_fmap.
    eapply Forall_impl; [apply split_Forall|].
    intros piece Hp Hin. apply Hp.
    apply list_elem_of_In, in_rev. by apply list_elem_of_In.
Qed.

Lemma rev_rev_each (pieces : list str) :
  rev (@rev N <$> rev (@rev N <$> pieces)) = pieces.
Proof.
  induction pieces as [|piece pieces IH]; [done|].
  cbn [fmap list_fmap rev]. rewrite fmap_app, rev_app_distr.
  cbn [fmap list_fmap rev app]. by rewrite rev_involutive, IH.
Qed.

Lemma strip_cons_space (c : char) (s : str) :
  isspace c = true -> strip (c :: s) = strip s.
Proof. apply strip_by_cons_in. Qed.

Lemma stripped_lines_lstrip (s : str) :
  stripped_lines (lstrip_by isspace s) = stripped_lines s.
Proof.
  induction s as [|c s IH]; [done|]. simpl.
  destruct (isspace c) eqn:Hc; [|done]. rewrite IH.
  unfold stripped_lines. simpl.
  destruct (N.eqb_spec c 10) as [->|Hnl].
  - cbn [fmap list_fmap]. by rewrite filter_cons.
  - pose proof (split_nonempty 10 s) as Hne.
    destruct (split 10 s) as [|piece pieces]; [done|].
    cbn [fmap list_fmap]. rewrite !filter_cons.
    by rewrite (strip_cons_space c piece).
Qed.

Lemma stripped_lines_rev (s : str) :
  stripped_lines (rev s) = rev (@rev N <$> stripped_lines s).
Proof.
  unfold stripped_lines. rewrite split_rev.
  induction (split 10 s) as [|piece pieces IH]; [done|].
  cbn [fmap list_fmap rev]. rewrite fmap_app, filter_app, IH.
  cbn [fmap list_fmap]. rewrite !filter_cons, filter_nil.
  unfold strip. rewrite strip_by_rev.
  destruct (decide (strip_by isspace piece <> [])) as [Hne|He].
  - rewrite decide_True.
    + cbn [fmap list_fmap rev]. done.
    + intros E. apply Hne. apply (f_equal (@rev N)) in E.
      by rewrite rev_involutive in E.
  - rewrite decide_False; [by rewrite app_nil_r|].
    intros Hne. apply He. intros E. apply Hne. by rewrite E.
Qed.

Lemma stripped_lines_strip (s : str) :
  stripped_lines (strip s) = stripped_lines s.
Proof.
  unfold strip, strip_by. rewrite stripped_lines_lstrip.
  unfold rstrip_by.
  rewrite stripped_lines_rev, stripped_lines_lstrip, stripped_lines_rev.
  apply rev_rev_each.
Qed.

Lemma line_lyrics_strip (line : str) :
  line_lyrics (strip line) = line_lyrics line.
Proof. unfold line_lyrics, strip. by rewrite strip_by_idemp. Qed.

Lemma flat_map_stripped_lines (s : str) :
  flat_map line_lyrics (split NEWLINE s)
  = flat_map line_lyrics (stripped_lines s).
Proof.
  unfold stripped_lines.
  induction (split 10 s) as [|line lines IH]; [done|].
  cbn [fmap list_fmap flat_map]. rewrite filter_cons, IH.
  destruct (decide (strip line <> [])) as [Hne|He].
  - simpl. by rewrite line_lyrics_strip.
  - assert (strip line = []) as E.
    { destruct (strip line); [done|]. exfalso. by apply He. }
    rewrite <- line_lyrics_strip, E. done.
Qed.

(** The lines of a text need not be taken from the stripped text. *)
Lemma text_lyrics_split (text : str) :
  text_lyrics text = flat_map line_lyrics (split NEWLINE text).
Proof.
  unfold text_lyrics.
  by rewrite !flat_map_stripped_lines, stripped_lines_strip.
Qed.

Lemma text_lyrics_join (lines : list str) :
  Forall (fun line => NEWLINE ∉ line) lines ->
  text_lyrics (join NEWLINE lines) = flat_map line_lyrics lines.
Proof.
  intros Hlines. rewrite text_lyrics_split.
  destruct lines as [|line lines]; [done|]. by rewrite split_join.
Qed.

(** ** Lines made of tags followed by a text *)

Lemma timecode_chars (m sec : str) (f : option str) (c : char) :
  well_formed m sec f -> c ∈ timecode m sec f ->
  isdecimal c = true \/ c = COLON \/ c = DOT.
Proof.
  intros ([_ Hm] & [_ Hs] & Hf) Hin. unfold timecode in Hin.
  rewrite Forall_forall in Hm, Hs.
  apply elem_of_app in Hin as [Hin|Hin]; [left; by apply Hm|].
  apply elem_of_cons in Hin as [->|Hin]; [by right; left|].
  apply elem_of_app in Hin as [Hin|Hin]; [left; by apply Hs|].
  destruct f as [f|]; [|by apply elem_of_nil in Hin].
  apply elem_of_cons in Hin as [->|Hin]; [by right; right|].
  destruct Hf as [_ Hf]. rewrite Forall_forall in Hf. left. by apply Hf.
Qed.

Lemma timecode_not_elem (m sec : str) (f : option str) (c : char) :
  well_formed m sec f -> isdecimal c = false -> c <> COLON -> c <> DOT ->
  c ∉ timecode m sec f.
Proof.
  intros Hwf Hc H1 H2 Hin.
  destruct (timecode_chars m sec f c Hwf Hin) as [H|[H|H]]; congruence.
Qed.

Lemma tag_not_elem (m sec f : str) (c : char) :
  well_formed m sec (Some f) -> isdecimal c = false -> c <> COLON ->
  c <> DOT -> c <> LBRACKET -> c <> RBRACKET -> c ∉ tag m sec f.
Proof.
  intros Hwf Hc H1 H2 H3 H4 Hin. unfold tag in Hin.
  apply elem_of_cons in Hin as [->|Hin]; [done|].
  apply elem_of_app in Hin as [Hin|Hin].
  - by apply (timecode_not_elem m sec (Some f) c).
  - apply elem_of_cons in Hin as [->|Hin]; [done|].
    by apply elem_of_nil in Hin.
Qed.

Lemma strip_eq_trimmed (s : str) : strip s = s -> trimmed s.
Proof.
  intros E. destruct (strip_by_split isspace s) as (_ & _ & _ & _ & _ & H).
  fold (strip s) in H. by rewrite E in H.
Qed.

Lemma tagged_line_nil (text : str) : tagged_line [] text = text.
Proof. reflexivity. Qed.

Lemma tagged_line_cons (m sec f : str) (stamps : list stamp) (text : str) :
  tagged_line ((m, sec, f) :: stamps) text
  = tag m sec f ++ tagged_line stamps text.
Proof. unfold tagged_line. simpl. by rewrite <- app_assoc. Qed.

Lemma last_tagged_line (stamps : list stamp) (text : str) :
  text <> [] -> last (tagged_line stamps text) = last text.
Proof.
  intros Hne. unfold tagged_line. rewrite last_app.
  destruct (last text) eqn:E; [done|]. by apply last_None in E.
Qed.

Lemma tagged_line_strip (stamps : list stamp) (text : str) :
  display_text text ->
  strip (tagged_line stamps text) = tagged_line stamps text.
Proof.
  intros (Hne & Hstrip & _ & _). apply strip_by_trimmed.
  pose proof (strip_eq_trimmed text Hstrip) as Htrim.
  destruct stamps as [|[[m sec] f] stamps]; [done|].
  assert (exists r, tagged_line ((m, sec, f) :: stamps) text = 91 :: r)
    as [r Hr].
  { rewrite tagged_line_cons. unfold tag. simpl. eauto. }
  rewrite Hr. split; [done|].
  intros d Hd. rewrite <- Hr, last_tagged_line in Hd by done.
  destruct text as [|c text]; [done|]. destruct Htrim as [_ Htrim].
  by apply Htrim.
Qed.

Lemma tagged_line_newline (stamps : list stamp) (text : str) :
  Forall stamp_ok stamps -> NEWLINE ∉ text ->
  NEWLINE ∉ tagged_line stamps text.
Proof.
  intros Hok Htext. induction Hok as [|[[m sec] f] stamps Hst Hok IH]; [done|].
  rewrite tagged_line_cons. intros Hin.
  apply elem_of_app in Hin as [Hin|Hin]; [|done].
  by apply (tag_not_elem m sec f 10) in Hin.
Qed.

Lemma findall_tagged_line (stamps : list stamp) (text : str) :
  Forall stamp_ok stamps -> findall TIME_PATTERN text = [] ->
  findall TIME_PATTERN (tagged_line stamps text)
  = (fun st => group1 (stamp_tag st)) <$> stamps.
Proof.
  intros Hok Htext. induction Hok as [|[[m sec] f] stamps Hst Hok IH]; [done|].
  rewrite tagged_line_cons, findall_app_tag by done. rewrite IH.
  cbn [fmap list_fmap stamp_tag]. by rewrite group1_tag.
Qed.

Lemma sub_tagged_line (stamps : list stamp) (text : str) :
  Forall stamp_ok stamps -> findall TIME_PATTERN text = [] ->
  sub TIME_PATTERN [] (tagged_line stamps text) = text.
Proof.
  intros Hok Htext. induction Hok as [|[[m sec] f] stamps Hst Hok IH].
  - by apply sub_no_match.
  - rewrite tagged_line_cons, sub_app_tag by done. by rewrite IH.
Qed.

Lemma line_lyrics_tagged (stamps : list stamp) (text : str) :
  Forall stamp_ok stamps -> display_text text ->
  line_lyrics (tagged_line stamps text) = line_entries stamps text.
Proof.
  intros Hok Htext. unfold line_lyrics.
  rewrite tagged_line_strip by done.
  destruct Htext as (Hne & Hstrip & Hnl & Hfind).
  rewrite sub_tagged_line, Hstrip, findall_tagged_line by done.
  destruct text as [|c text]; [done|]. cbn [nonempty].
  unfold line_entries. rewrite <- list_fmap_compose.
  apply Forall_fmap_ext_1. eapply Forall_impl; [exact Hok|].
  intros [[m sec] f] Hst. simpl. f_equal. unfold decoded.
  by rewrite group1_tag, parse_lrc_time_timecode.
Qed.

Lemma text_lyrics_document (lines : list (list stamp * list N)) :
  Forall line_ok lines -> text_lyrics (document lines) = document_entries lines.
Proof.
  intros Hlines. unfold document. rewrite text_lyrics_join.
  - unfold document_entries.
    induction Hlines as [|[stamps text] lines [Hok Htext] _ IH]; [done|].
    cbn [fmap list_fmap flat_map]. simpl in *.
    by rewrite line_lyrics_tagged, IH.
  - apply Forall_fmap. eapply Forall_impl; [exact Hlines|].
    intros [stamps text] [Hok (_ & _ & Hnl & _)]. simpl in *.
    by apply tagged_line_newline.
Qed.

Lemma parse_lrc_content_document (lines : list (list stamp * list N)) :
  Forall line_ok lines ->
  parse_lrc_content (document lines)
  = mkPy (Return (sort_by time (document_entries lines))) [].
Proof.
  intros Hlines. by rewrite parse_lrc_content_pure, text_lyrics_document.
Qed.


Lemma is_display_text_true (text : str) :
  is_display_text text = true -> display_text text.
Proof.
  unfold is_display_text. intros H.
  apply andb_true_iff in H as [H H4]. apply andb_true_iff in H as [H H3].
  apply andb_true_iff in H as [H1 H2].
  apply bool_decide_eq_true in H2, H3, H4.
  split; [by destruct text|done].
Qed.


(** ** Bracketed texts that are not tags *)

Lemma omap_unmatched (s : str) :
  omap (fun x => match x with Matched w => Some (group1 w) | Unmatched _ => None end)
       (Unmatched <$> s) = [].
Proof. induction s as [|c s IH]; [done|]. exact IH. Qed.

Lemma match_here_bracketed (inner text : str) :
  RBRACKET ∉ inner ->
  (forall m sec f, well_formed m sec (Some f) -> inner <> timecode m sec (Some f)) ->
  match_here TIME_PATTERN (bracketed inner ++ text) = None.
Proof.
  intros Hr Hinner.
  destruct (match_here TIME_PATTERN (bracketed inner ++ text)) as [n|] eqn:Hm;
    [|done].
  apply match_here_TIME_PATTERN in Hm as (m & sec & f & rest & Hwf & Hs & _).
  unfold bracketed in Hs. simpl in Hs. rewrite <- app_assoc in Hs.
  injection Hs as Hs. simpl in Hs.
  apply first_occurrence_unique in Hs as [Hs _]; [|done|].
  - by destruct (Hinner m sec f Hwf).
  - by apply timecode_not_elem.
Qed.

Lemma findall_bracketed (inner text : str) :
  LBRACKET ∉ inner -> RBRACKET ∉ inner -> LBRACKET ∉ text ->
  (forall m sec f, well_formed m sec (Some f) -> inner <> timecode m sec (Some f)) ->
  findall TIME_PATTERN (bracketed inner ++ text) = [].
Proof.
  intros Hl Hr Htext Hinner. unfold findall.
  pose proof (match_here_bracketed inner text Hr Hinner) as Hm.
  change (bracketed inner ++ text) with (91 :: (inner ++ [93]) ++ text) in *.
  rewrite scan_unmatched by done.
  rewrite scan_no_bracket.
  - apply omap_unmatched.
  - rewrite <- app_assoc. simpl. intros Hin.
    apply elem_of_app in Hin as [Hin|Hin]; [done|].
    apply elem_of_cons in Hin as [Hin|Hin]; done.
Qed.

Lemma display_text_bracketed (inner text : str) :
  LBRACKET ∉ inner -> RBRACKET ∉ inner -> NEWLINE ∉ inner ->
  (forall m sec f, well_formed m sec (Some f) -> inner <> timecode m sec (Some f)) ->
  LBRACKET ∉ text -> NEWLINE ∉ text -> strip text = text ->
  display_text (bracketed inner ++ text).
Proof.
  intros Hl Hr Hnl Hinner Htl Htnl Hstrip.
  split; [done|]. split; [|split].
  - apply strip_by_trimmed. unfold bracketed. simpl. split; [done|].
    intros d Hd.
    change (91 :: (inner ++ [93]) ++ text)
      with (([91] ++ inner ++ [93]) ++ text) in Hd.
    rewrite last_app in Hd.
    destruct (last text) as [e|] eqn:He.
    + injection Hd as <-. pose proof (strip_eq_trimmed text Hstrip) as Htrim.
      destruct text as [|c text]; [done|]. destruct Htrim as [_ Htrim].
      by apply Htrim.
    + rewrite !last_app in Hd. simpl in Hd. by injection Hd as <-.
  - unfold bracketed. simpl. rewrite <- app_assoc. simpl. intros Hin.
    apply elem_of_cons in Hin as [Hin|Hin]; [done|].
    apply elem_of_app in Hin as [Hin|Hin]; [done|].
    apply elem_of_cons in Hin as [Hin|Hin]; done.
  - by apply findall_bracketed.
Qed.

Lemma undecodable_not_timecode (inner : str) :
  (forall ms, parse_lrc_time inner <> Return ms) ->
  forall m sec f, well_formed m sec (Some f) -> inner <> timecode m sec (Some f).
Proof.
  intros Hfail m sec f Hwf ->.
  by apply (Hfail (timecode_value m sec (Some f))), parse_lrc_time_timecode.
Qed.




(** ** Bracketed timecodes without a fraction *)

Lemma dot_not_in_fractionless (m sec : str) :
  well_formed m sec None -> DOT ∉ timecode m sec None.
Proof.
  intros ([_ Hm] & [_ Hs] & _) Hin. unfold timecode in Hin.
  rewrite app_nil_r in Hin. rewrite Forall_forall in Hm, Hs.
  apply elem_of_app in Hin as [Hin|Hin]; [by specialize (Hm _ Hin)|].
  apply elem_of_cons in Hin as [Hin|Hin]; [done|by specialize (Hs _ Hin)].
Qed.

Lemma fractionless_not_fraction (m sec m' sec' f' : str) :
  well_formed m sec None -> timecode m sec None <> timecode m' sec' (Some f').
Proof.
  intros Hwf E. apply (dot_not_in_fractionless m sec Hwf). rewrite E.
  unfold timecode. apply elem_of_app. right. right.
  apply elem_of_app. right. by left.
Qed.



(** ** When decoding fails *)

Lemma parse_lrc_time_body_None (t : str) :
  parse_lrc_time_body t = None <-> undecodable t.
Proof.
  unfold parse_lrc_time_body, undecodable.
  destruct (first_occurrence 58 t) as [Hno|(m & rest & -> & Hm)].
  { rewrite split_max1_absent by done. simpl. split; [by left|done]. }
  rewrite split_max1_first by done. cbn [unpack2 mbind option_bind].
  assert (58 ∈ m ++ 58 :: rest) as Hin
    by (apply elem_of_app; right; by left).
  destruct (first_occurrence 46 rest) as [Hnd|(sec & f & -> & Hsec)].
  - assert (contains 46 rest = false) as ->.
    { apply not_true_iff_false. by rewrite contains_elem_of. }
    cbn [mbind option_bind]. split.
    + intros Hbody. right. exists m, rest. split; [done|]. split; [done|].
      destruct (py_int m) as [mi|]; [|by left]. right. left.
      split; [done|]. cbn [mbind option_bind] in Hbody.
      by destruct (py_int rest).
    + intros [Hno|(m' & rest' & E & Hm' & H)]; [done|].
      apply first_occurrence_unique in E as [<- <-]; [|done..].
      destruct H as [->|[[_ ->]|(sec & f & -> & _)]].
      * done.
      * by destruct (py_int m).
      * exfalso. apply Hnd, elem_of_app. right. by left.
  - assert (contains 46 (sec ++ 46 :: f) = true) as ->.
    { apply contains_elem_of, elem_of_app. right. by left. }
    rewrite split_max1_first by done. cbn [unpack2 mbind option_bind].
    fold (fraction_read f).
    assert ((if (length f =? 2)%nat
             then (fun v => v * 10)%Z <$> py_int f
             else py_int (take 3 f)) = None
            <-> py_int (fraction_read f) = None) as Hfrac.
    { unfold fraction_read. destruct (length f =? 2)%nat; [|done].
      by destruct (py_int f). }
    split.
    + intros Hbody. right. exists m, (sec ++ 46 :: f).
      split; [done|]. split; [done|].
      destruct (py_int m) as [mi|]; [|by left]. right. right.
      exists sec, f. split; [done|]. split; [done|].
      destruct (py_int sec) as [si|] eqn:Hsi; [|by left]. right.
      apply Hfrac.
      destruct (if (length f =? 2)%nat then _ else _) as [v|]; [|done].
      cbn [mbind option_bind] in Hbody. by rewrite Hsi in Hbody.
    + intros [Hno|(m' & rest' & E & Hm' & H)]; [done|].
      apply first_occurrence_unique in E as [<- <-]; [|done..].
      destruct H as [->|[[Hnd _]|(sec' & f' & E & Hsec' & H)]].
      * by destruct (if (length f =? 2)%nat then _ else _).
      * exfalso. apply Hnd, elem_of_app. right. by left.
      * apply first_occurrence_unique in E as [<- <-]; [|done..].
        destruct H as [H|H].
        -- destruct (if (length f =? 2)%nat then _ else _); [|done].
           cbn [mbind option_bind]. rewrite H. by destruct (py_int m).
        -- apply Hfrac in H. by rewrite H.
Qed.

(** C7, as the code has it.  Decoding fails exactly when the
    bracket-stripped text is [undecodable], always with a [ValueError]
    whose message ends with the bracket-stripped text. *)
Theorem parse_lrc_time_failure (time_str : str) :
  (undecodable (strip_chars [LBRACKET; RBRACKET] time_str) <->
   parse_lrc_time time_str
   = Raise (ValueError
              (INVALID_TIME_FORMAT ++ strip_chars [LBRACKET; RBRACKET] time_str)))
  /\ (~ undecodable (strip_chars [LBRACKET; RBRACKET] time_str) <->
      exists ms, parse_lrc_time time_str = Return ms)
  /\ (forall e,
        parse_lrc_time time_str = Raise e ->
        e = ValueError
              (INVALID_TIME_FORMAT ++ strip_chars [LBRACKET; RBRACKET] time_str)).
Proof.
  unfold parse_lrc_time.
  pose proof (parse_lrc_time_body_None (strip_chars [91; 93] time_str)) as H.
  destruct (parse_lrc_time_body (strip_chars [91; 93] time_str)) as [ms|].
  - assert (~ undecodable (strip_chars [91; 93] time_str)) as Hdec.
    { intros Hu. by apply H in Hu. }
    split; [split; [done|done]|]. split; [|done].
    split; [by eexists|done].
  - assert (undecodable (strip_chars [91; 93] time_str)) as Hu by (by apply H).
    split; [done|]. split.
    + split; [done|by intros [ms ?]].
    + by intros e [= <-].
Qed.

Lemma parse_lrc_time_failure_example :
  undecodable (utf8 "bad")
  /\ parse_lrc_time (utf8 "[bad]")
     = Raise (ValueError (INVALID_TIME_FORMAT ++ utf8 "bad")).
Proof.
  assert (undecodable (utf8 "bad")) as Hu.
  { left. by apply char_not_in. }
  split; [exact Hu|].
  exact (proj1 (proj1 (parse_lrc_time_failure (utf8 "[bad]"))) Hu).
Defined.

(** C7, as stated, fails: a negative component and a fraction with trailing
    letters are not non-negative integers, yet decoding succeeds. *)
Lemma parse_lrc_time_accepts_more :
  parse_lrc_time (utf8 "-1:30") = Return (-30000)%Z
  /\ ~ (exists n : N, py_int (utf8 "-1") = Some (Z.of_N n))
  /\ parse_lrc_time (utf8 "1:2.345xyz") = Return 62345%Z
  /\ py_int (utf8 "345xyz") = None.
Proof.
  split; [by vm_compute|]. split; [|split; by vm_compute].
  intros [[|p] Hn]; vm_compute in Hn; discriminate.
Qed.

(** * Further properties of the lyric code *)

(** ** Encoding and decoding negative times *)

Lemma ascii_digits_int_input (d : str) :
  Forall (fun c => ZERO <= c <= 57) d ->
  map (fun c => ZERO + digit_of c) d = d.
Proof.
  induction 1 as [|c d Hc _ IH]; [done|]. simpl.
  rewrite digit_of_ascii, IH by done. f_equal. lia.
Qed.

Lemma py_int_minus (d : str) :
  ascii_digits d -> py_int (MINUS :: d) = Some (- Z.of_N (number d))%Z.
Proof.
  intros [Hne Hd]. unfold py_int.
  assert (is_ascii (45 :: d) = true) as ->.
  { unfold is_ascii. simpl. apply forallb_forall. intros c Hc.
    apply list_elem_of_In in Hc. rewrite Forall_forall in Hd.
    specialize (Hd c Hc). apply N.ltb_lt. lia. }
  cbn [lstrip_by]. change (ascii_isspace 45) with false. cbv iota.
  change (45 =? 43) with false. change (45 =? 45) with true. cbv iota.
  destruct d as [|c d]; [done|].
  pose proof (Forall_inv Hd) as Hc. simpl in Hc.
  destruct (N.eqb_spec c 95); [lia|].
  assert (ascii_digit c = Some (c - 48)) as ->.
  { unfold ascii_digit.
    destruct (N.leb_spec 48 c), (N.leb_spec c 57); simpl; first [lia|done]. }
  rewrite <- (ascii_digits_int_input (c :: d)) at 1 by done.
  rewrite scan_digits_decimal.
  - done.
  - eapply Forall_impl; [exact Hd|]. intros x Hx. by apply isdecimal_ascii.
  - done.
Qed.

Lemma parse_lrc_time_body_fraction (mt s f : str) (mv : Z) :
  COLON ∉ mt -> py_int mt = Some mv -> decimal_text s -> decimal_text f ->
  parse_lrc_time_body (mt ++ COLON :: s ++ DOT :: f)
  = Some (mv * 60000 + Z.of_N (number s) * 1000
          + Z.of_N (fraction_millis (Some f)))%Z.
Proof.
  intros Hmt Hmv Hs Hf. unfold parse_lrc_time_body.
  rewrite split_max1_first by done.
  cbn [unpack2 mbind option_bind].
  assert (contains 46 (s ++ 46 :: f) = true) as ->.
  { apply contains_elem_of, elem_of_app. right. by left. }
  rewrite split_max1_first
    by (apply decimal_text_not_elem; [done|apply Hs]).
  cbn [unpack2 mbind option_bind]. unfold fraction_millis.
  destruct (length f =? 2)%nat.
  - rewrite (py_int_decimal f) by done.
    cbn [fmap option_fmap option_map mbind option_bind].
    rewrite Hmv, (py_int_decimal s) by done.
    cbn [mbind option_bind]. f_equal. lia.
  - rewrite (py_int_decimal (take 3 f)) by (by apply decimal_text_take).
    cbn [mbind option_bind].
    rewrite Hmv, (py_int_decimal s) by done.
    cbn [mbind option_bind]. done.
Qed.

Lemma parse_format_lrc_time_negative (ms : Z) :
  (ms < 0)%Z -> parse_lrc_time (format_lrc_time ms) = Return ms.
Proof.
  intros Hms. unfold format_lrc_time.
  assert (ms / 60000 < 0)%Z as H1
    by (apply Z.div_lt_upper_bound; lia).
  assert (0 <= ms mod 60000 / 1000 < 60)%Z as H2.
  { pose proof (Z.mod_pos_bound ms 60000 ltac:(lia)).
    split; [apply Z.div_pos; lia|apply Z.div_lt_upper_bound; lia]. }
  assert (0 <= ms mod 1000 < 1000)%Z as H3 by (apply Z.mod_pos_bound; lia).
  destruct (format_0d_nonneg 2 _ (proj1 H2)) as (Hs & Hsv & _).
  destruct (format_0d_nonneg 3 _ (proj1 H3)) as (Hf & Hfv & Hfl).
  assert (length (format_0d 3 (ms mod 1000)) = 3%nat) as Hfl3.
  { rewrite Hfl.
    pose proof (digits_length (Z.to_N (ms mod 1000)) 2) as Hl.
    change (10 ^ N.of_nat 3) with 1000 in Hl. lia. }
  set (ss := format_0d 2 (ms mod 60000 / 1000)) in *.
  set (fff := format_0d 3 (ms mod 1000)) in *.
  unfold format_0d at 1. destruct (Z.ltb_spec (ms / 60000) 0); [|lia].
  set (n := Z.to_N (- (ms / 60000))).
  destruct (digits_spec n) as [Hd Hv].
  destruct (zero_fill_spec (2 - 1) _ Hd) as [Hd' Hv'].
  set (mm := zero_fill (2 - 1) (digits n)) in *.
  assert (py_int (45 :: mm) = Some (ms / 60000)%Z) as Hmv.
  { rewrite py_int_minus by done. rewrite Hv', Hv. subst n. f_equal. lia. }
  assert (58 ∉ 45 :: mm) as Hcolon.
  { apply not_elem_of_cons. split; [done|].
    apply decimal_text_not_elem; [done|].
    by apply ascii_digits_decimal_text in Hd' as [_ ?]. }
  pose proof (parse_lrc_time_body_fraction (45 :: mm) ss fff _ Hcolon Hmv
                (ascii_digits_decimal_text _ Hs)
                (ascii_digits_decimal_text _ Hf)) as Hbody.
  unfold parse_lrc_time, strip_chars.
  assert ([91] ++ (45 :: mm) ++ [58] ++ ss ++ [46] ++ fff ++ [93]
          = [91] ++ ((45 :: mm) ++ 58 :: ss ++ 46 :: fff) ++ [93]) as ->.
  { simpl. f_equal. f_equal. rewrite <- !app_assoc. simpl.
    by rewrite <- !app_assoc. }
  rewrite strip_by_sandwich.
  - rewrite Hbody. f_equal. unfold fraction_millis.
    destruct fff as [|a [|b [|c [|d fff']]]]; try done.
    change (length [a; b; c] =? 2)%nat with false. cbn [take].
    rewrite Hsv, Hfv. clear. Z.to_euclidean_division_equations. lia.
  - constructor; [done|constructor].
  - constructor; [done|constructor].
  - simpl. split; [done|]. intros d Hd0.
    change (45 :: mm ++ 58 :: ss ++ 46 :: fff)
      with ((45 :: mm) ++ [58] ++ ss ++ [46] ++ fff) in Hd0.
    rewrite !last_app in Hd0.
    destruct (last fff) as [e|] eqn:He.
    + injection Hd0 as <-. apply last_Some_elem_of in He.
      destruct Hf as [_ Hf]. rewrite Forall_forall in Hf.
      specialize (Hf e He). unfold char_in. simpl.
      destruct (N.eqb_spec e 91); [lia|]. destruct (N.eqb_spec e 93); [lia|].
      done.
    + apply last_None in He. by destruct Hf.
Qed.


(** ** What every parsed document satisfies *)

Lemma strip_by_elem_of (p : char -> bool) (s : str) (c : char) :
  c ∈ strip_by p s -> c ∈ s.
Proof.
  intros Hc. destruct (strip_by_split p s) as (pre & post & Hs & _).
  rewrite Hs. apply elem_of_app. right. apply elem_of_app. by left.
Qed.

Lemma scan_unmatched_elem_of (p : list item) (k : nat) (s : str) (c : char) :
  Unmatched c ∈ scan p k s -> c ∈ s.
Proof.
  revert k. induction s as [|d s IH]; intros k Hin.
  - by apply elem_of_nil in Hin.
  - destruct k as [|k]; [|right; by apply (IH k)].
    cbn [scan] in Hin.
    destruct (match_here p (d :: s)) as [[|n]|].
    + apply elem_of_cons in Hin as [[= ->]|Hin]; [by left|].
      right. by apply (IH O).
    + apply elem_of_cons in Hin as [Hin|Hin]; [done|].
      right. by apply (IH n).
    + apply elem_of_cons in Hin as [[= ->]|Hin]; [by left|].
      right. by apply (IH O).
Qed.

Lemma sub_nil_elem_of (p : list item) (s : str) (c : char) :
  c ∈ sub p [] s -> c ∈ s.
Proof.
  unfold sub. intros Hin.
  apply list_elem_of_In, in_concat in Hin as (l & Hl & Hc).
  apply in_map_iff in Hl as ([d|w] & <- & Hx).
  - destruct Hc as [->|[]].
    apply (scan_unmatched_elem_of p O). by apply list_elem_of_In.
  - destruct Hc.
Qed.

Lemma line_lyrics_entry (line : str) (l : lyric) :
  l ∈ line_lyrics line ->
  (0 <= time l)%Z /\ content l <> [] /\ strip (content l) = content l
  /\ (forall c, c ∈ content l -> c ∈ line).
Proof.
  intros Hin. pose proof (line_lyrics_content line l Hin) as Hne.
  unfold line_lyrics in Hin.
  destruct (nonempty (strip (sub TIME_PATTERN [] (strip line)))) eqn:Hc;
    [|by apply elem_of_nil in Hin].
  apply list_elem_of_fmap in Hin as (tm & -> & Htm). cbn [time content].
  split; [|split; [done|split]].
  - apply findall_TIME_PATTERN in Htm as (m & sec & f & Hwf & ->).
    unfold decoded. rewrite parse_lrc_time_timecode by done.
    unfold timecode_value. lia.
  - unfold strip. apply strip_by_idemp.
  - intros c Hin. apply strip_by_elem_of, sub_nil_elem_of in Hin.
    by apply strip_by_elem_of in Hin.
Qed.

Lemma parsed_entry (text : str) (l : lyric) :
  l ∈ parsed text ->
  (0 <= time l)%Z /\ content l <> [] /\ strip (content l) = content l
  /\ (NEWLINE ∉ content l).
Proof.
  rewrite parsed_eq, sort_by_Permutation. unfold text_lyrics. intros Hl.
  apply list_elem_of_In, in_flat_map in Hl as (line & Hline & Hl).
  apply list_elem_of_In in Hl.
  destruct (line_lyrics_entry line l Hl) as (H1 & H2 & H3 & H4).
  split; [done|]. split; [done|]. split; [done|].
  intros Hnl. apply H4 in Hnl.
  pose proof (split_Forall 10 (strip text)) as Hsplit.
  rewrite Forall_forall in Hsplit.
  by apply (Hsplit line); [apply list_elem_of_In|].
Qed.


(** ** The lines a merge writes *)

Lemma format_0d_chars (width : nat) (n : Z) (c : char) :
  c ∈ format_0d width n -> ZERO <= c <= 57 \/ c = MINUS.
Proof.
  unfold format_0d. destruct (Z.ltb_spec n 0) as [Hn|Hn]; intros Hin.
  - apply elem_of_cons in Hin as [->|Hin]; [by right|]. left.
    destruct (digits_spec (Z.to_N (- n))) as [Hd _].
    destruct (zero_fill_spec (width - 1) _ Hd) as [[_ Hz] _].
    rewrite Forall_forall in Hz. by apply Hz.
  - left. destruct (digits_spec (Z.to_N n)) as [Hd _].
    destruct (zero_fill_spec width _ Hd) as [[_ Hz] _].
    rewrite Forall_forall in Hz. by apply Hz.
Qed.

Lemma format_lrc_time_chars (ms : Z) (c : char) :
  c ∈ format_lrc_time ms ->
  ZERO <= c <= 57 \/ c = MINUS \/ c = LBRACKET \/ c = RBRACKET
  \/ c = COLON \/ c = DOT.
Proof.
  unfold format_lrc_time. intros Hin.
  repeat (apply elem_of_app in Hin as [Hin|Hin]);
    try (apply list_elem_of_singleton in Hin as ->; tauto);
    apply format_0d_chars in Hin; tauto.
Qed.

Lemma format_lrc_time_no_newline (ms : Z) : NEWLINE ∉ format_lrc_time ms.
Proof.
  intros Hin. apply format_lrc_time_chars in Hin. lia.
Qed.

Lemma association_entry (text : str) (t : Z) (c : str) :
  association text !! t = Some c ->
  (0 <= t)%Z /\ c <> [] /\ strip c = c /\ (NEWLINE ∉ c).
Proof.
  intros H. apply time_dict_lookup_Some in H.
  by apply parsed_entry in H.
Qed.


(** ** The order and the layout of the lines of a text *)

Lemma sorted_unique_keys {A} (key : A -> Z) (l1 l2 : list A) :
  StronglySorted (by_key key) l1 -> StronglySorted (by_key key) l2 ->
  l1 ≡ₚ l2 -> NoDup (key <$> l1) -> l1 = l2.
Proof.
  intros H1. revert l2. induction H1 as [|x l1 Hs1 IH Hx]; intros l2 H2 Hp Hnd.
  - by apply Permutation_nil_l in Hp.
  - destruct H2 as [|y l2 Hs2 Hy].
    { by apply Permutation_nil_r in Hp. }
    apply NoDup_cons in Hnd as [Hkx Hnd].
    assert (x = y) as <-.
    { destruct (decide (key x = key y)) as [Hk|Hk].
      - assert (y ∈ x :: l1) as Hin by (rewrite Hp; by left).
        apply elem_of_cons in Hin as [->|Hin]; [done|].
        exfalso. apply Hkx. rewrite Hk. by apply list_elem_of_fmap_2.
      - exfalso.
        assert (x ∈ y :: l2) as Hin by (rewrite <- Hp; by left).
        assert (y ∈ x :: l1) as Hin' by (rewrite Hp; by left).
        apply elem_of_cons in Hin as [->|Hin]; [done|].
        apply elem_of_cons in Hin' as [->|Hin']; [done|].
        rewrite Forall_forall in Hx, Hy.
        specialize (Hx y Hin'). specialize (Hy x Hin).
        unfold by_key in *. lia. }
    f_equal. apply IH; [done| |done].
    by apply Permutation_cons_inv in Hp.
Qed.

Lemma flat_map_Permutation {X E} (g : X -> list E) (xs ys : list X) :
  xs ≡ₚ ys -> flat_map g xs ≡ₚ flat_map g ys.
Proof.
  induction 1 as [|x xs ys _ IH|x y xs|xs ys zs _ IH1 _ IH2]; simpl.
  - done.
  - by rewrite IH.
  - rewrite !app_assoc. f_equiv. apply Permutation_app_comm.
  - by rewrite IH1.
Qed.



Lemma stripped_lines_no_newline (text : str) :
  Forall (fun line => NEWLINE ∉ line) (stripped_lines text).
Proof.
  unfold stripped_lines. apply Forall_forall. intros line Hin.
  apply list_elem_of_filter in Hin as [_ Hin].
  apply list_elem_of_fmap in Hin as (piece & -> & Hpiece).
  intros Hnl. apply strip_by_elem_of in Hnl.
  pose proof (split_Forall 10 text) as Hsplit.
  rewrite Forall_forall in Hsplit. by apply (Hsplit piece).
Qed.

(** X5. Only the non-blank lines of a text, each without the white space
    around it, matter to the parser: the text made of these lines alone
    parses exactly as the text itself. *)
Theorem parse_lrc_content_stripped_lines (text : str) :
  parse_lrc_content (join NEWLINE (stripped_lines text))
  = parse_lrc_content text.
Proof.
  rewrite !parse_lrc_content_pure. f_equal. f_equal. f_equal.
  rewrite text_lyrics_join by apply stripped_lines_no_newline.
  by rewrite text_lyrics_split, flat_map_stripped_lines.
Qed.

(** ** Merging with a side that has no lyrics *)

Lemma parsed_blank (text : str) :
  Forall (fun c => isspace c = true) text -> parsed text = [].
Proof.
  intros Hws. rewrite parsed_eq. unfold text_lyrics, strip.
  by rewrite strip_by_all.
Qed.



(** * Properties of the file names and directories *)

(** ** Sanitized file names *)

Lemma strip_by_nil_all (p : char -> bool) (s : str) :
  strip_by p s = [] -> all_in p s.
Proof.
  intros E. destruct (strip_by_split p s) as (pre & post & Hs & Hpre & Hpost & _).
  rewrite E in Hs. rewrite Hs. unfold all_in in *.
  by apply Forall_app.
Qed.

Lemma foldl_replace (chars : str) (s : str) :
  foldl (fun filename c => replace c COMMA filename) s chars
  = (fun x => foldl (fun y c => if y =? c then COMMA else y) x chars) <$> s.
Proof.
  revert s. induction chars as [|c chars IH]; intros s; simpl.
  - by rewrite list_fmap_id.
  - rewrite IH. unfold replace. by rewrite <- list_fmap_compose.
Qed.

Lemma foldl_replace_char (chars : str) (x : char) :
  char_in chars COMMA = false ->
  foldl (fun y c => if y =? c then COMMA else y) x chars
  = if char_in chars x then COMMA else x.
Proof.
  revert x. induction chars as [|c chars IH]; intros x Hc; [done|].
  unfold char_in in *. cbn [foldl existsb] in *.
  apply orb_false_iff in Hc as [_ Hc].
  destruct (N.eqb_spec x c) as [->|Hx]; cbn [orb].
  - rewrite IH by done. by rewrite Hc.
  - by apply IH.
Qed.

Lemma clean_foldl (x : char) :
  foldl (fun y c => if y =? c then COMMA else y) x invalid_chars = clean x.
Proof. by apply foldl_replace_char. Qed.

Lemma sanitize_filename_eq (filename : str) :
  filename <> [] -> sanitize_filename filename = strip (clean <$> filename).
Proof.
  intros Hne. unfold sanitize_filename.
  destruct filename as [|c rest]; [done|]. cbn [nonempty negb].
  rewrite foldl_replace. f_equal. apply list_fmap_ext.
  intros i x _. apply clean_foldl.
Qed.

Lemma clean_valid (c : char) : clean c ∉ invalid_chars.
Proof.
  unfold clean. destruct (char_in invalid_chars c) eqn:E.
  - by apply char_not_in.
  - by apply char_not_in.
Qed.

Lemma clean_isspace (c : char) : isspace (clean c) = isspace c.
Proof.
  unfold clean. destruct (char_in invalid_chars c) eqn:E; [|done].
  apply contains_elem_of in E. unfold invalid_chars in E.
  repeat (apply elem_of_cons in E as [->|E]; [done|]).
  by apply elem_of_nil in E.
Qed.

Lemma clean_id (c : char) : c ∉ invalid_chars -> clean c = c.
Proof.
  intros H. unfold clean. destruct (char_in invalid_chars c) eqn:E; [|done].
  by apply contains_elem_of in E.
Qed.

Lemma sanitize_filename_valid (filename : str) :
  Forall (fun c => c ∉ invalid_chars) (sanitize_filename filename)
  /\ strip (sanitize_filename filename) = sanitize_filename filename.
Proof.
  destruct (decide (filename = [])) as [->|Hne].
  - split; [|by vm_compute].
    change (sanitize_filename []) with (utf8 "unknown").
    repeat constructor; by apply char_not_in.
  - rewrite sanitize_filename_eq by done. split.
    + apply Forall_forall. intros c Hc. apply strip_by_elem_of in Hc.
      apply list_elem_of_fmap in Hc as (x & -> & _). apply clean_valid.
    + apply strip_by_idemp.
Qed.

Lemma sanitize_filename_nil (filename : str) :
  sanitize_filename filename = []
  <-> filename <> [] /\ Forall (fun c => isspace c = true) filename.
Proof.
  destruct (decide (filename = [])) as [->|Hne].
  - split; [by vm_compute|]. by intros [? _].
  - rewrite sanitize_filename_eq by done. split.
    + intros E. split; [done|]. apply strip_by_nil_all in E.
      unfold all_in in E. rewrite Forall_fmap in E.
      eapply Forall_impl; [exact E|]. intros c Hc. simpl in Hc.
      by rewrite clean_isspace in Hc.
    + intros [_ Hws]. apply strip_by_all. unfold all_in.
      rewrite Forall_fmap. eapply Forall_impl; [exact Hws|].
      intros c Hc. simpl. by rewrite clean_isspace.
Qed.


Lemma sanitize_filename_fixed (filename : str) :
  filename <> [] -> Forall (fun c => c ∉ invalid_chars) filename ->
  strip filename = filename -> sanitize_filename filename = filename.
Proof.
  intros Hne Hvalid Hstrip. rewrite sanitize_filename_eq by done.
  assert (clean <$> filename = filename) as ->; [|done].
  rewrite <- (list_fmap_id filename) at 2. apply list_fmap_ext.
  intros i c Hc. apply clean_id. rewrite Forall_forall in Hvalid.
  apply Hvalid. by eapply list_elem_of_lookup_2.
Qed.

(** X8. The names that sanitizing leaves as they are, are the names that
    are not empty, hold no invalid character and have no white space at
    their ends. *)
Theorem sanitize_filename_fixed_points (filename : str) :
  sanitize_filename filename = filename
  <-> filename <> [] /\ Forall (fun c => c ∉ invalid_chars) filename
      /\ strip filename = filename.
Proof.
  split.
  - intros E. destruct (sanitize_filename_valid filename) as [H1 H2].
    rewrite E in H1, H2. split; [|done].
    intros ->. by vm_compute in E.
  - intros (Hne & Hvalid & Hstrip). by apply sanitize_filename_fixed.
Qed.

(** X9. Sanitizing twice is sanitizing once, unless the first result is
    empty (the second is then [unknown]). *)
Theorem sanitize_filename_idempotent (filename : str) :
  sanitize_filename filename <> [] ->
  sanitize_filename (sanitize_filename filename) = sanitize_filename filename.
Proof.
  intros Hne. destruct (sanitize_filename_valid filename) as [H1 H2].
  by apply sanitize_filename_fixed.
Qed.

Lemma sanitize_filename_idempotent_example :
  sanitize_filename (utf8 " AC/DC: Who? ") = utf8 "AC,DC, Who,"
  /\ sanitize_filename (utf8 "AC,DC, Who,") = utf8 "AC,DC, Who,".
Proof.
  assert (sanitize_filename (utf8 " AC/DC: Who? ") = utf8 "AC,DC, Who,") as E
    by (by vm_compute).
  split; [exact E|]. rewrite <- E.
  apply sanitize_filename_idempotent. by rewrite E.
Defined.

(** ** The folder of a song *)

Lemma trimmed_app_minus (a b : str) :
  trimmed a -> trimmed b -> trimmed (a ++ [MINUS] ++ b).
Proof.
  unfold trimmed, trimmed_by. intros Ha Hb.
  assert (forall d, last (a ++ [MINUS] ++ b) = Some d -> isspace d = false)
    as Hlast.
  { intros d. rewrite last_app. simpl app. rewrite last_cons.
    destruct b as [|c b]; simpl.
    - by intros [= <-].
    - destruct Hb as [_ Hb]. destruct (last (c :: b)) as [e|] eqn:E.
      + intros [= <-]. by apply Hb.
      + by rewrite last_cons in E; destruct (last b). }
  destruct a as [|c a]; simpl in *; [done|]. by destruct Ha.
Qed.

(** X10. The folder of a song, made of the sanitized title, a hyphen and
    the sanitized artist, is one path component: it is not empty, is
    neither [.] nor [..], holds no invalid character (so no slash and no
    backslash) and has no white space at its ends. *)
Theorem folder_name_component (name ar_name : str) :
  folder_name name ar_name <> []
  /\ folder_name name ar_name <> utf8 "."
  /\ folder_name name ar_name <> utf8 ".."
  /\ Forall (fun c => c ∉ invalid_chars) (folder_name name ar_name)
  /\ (SLASH ∉ folder_name name ar_name)
  /\ (BACKSLASH ∉ folder_name name ar_name)
  /\ strip (folder_name name ar_name) = folder_name name ar_name.
Proof.
  unfold folder_name.
  destruct (sanitize_filename_valid name) as [Hn1 Hn2].
  destruct (sanitize_filename_valid ar_name) as [Ha1 Ha2].
  set (song_name := sanitize_filename name) in *.
  set (artist_name := sanitize_filename ar_name) in *.
  assert (MINUS ∈ song_name ++ [MINUS] ++ artist_name) as Hminus.
  { apply elem_of_app. right. by left. }
  assert (Forall (fun c => c ∉ invalid_chars)
            (song_name ++ [MINUS] ++ artist_name)) as Hvalid.
  { apply Forall_app. split; [done|]. apply Forall_app. split; [|done].
    repeat constructor. by apply char_not_in. }
  split; [by destruct song_name|].
  split.
  { intros E. rewrite E in Hminus.
    by apply (char_not_in MINUS (utf8 ".")) in Hminus. }
  split.
  { intros E. rewrite E in Hminus.
    by apply (char_not_in MINUS (utf8 "..")) in Hminus. }
  split; [done|].
  rewrite Forall_forall in Hvalid.
  split.
  { intros H. apply (Hvalid _ H). unfold invalid_chars.
    do 4 right. left. }
  split.
  { intros H. apply (Hvalid _ H). unfold invalid_chars.
    do 5 right. left. }
  apply strip_by_trimmed.
  apply trimmed_app_minus; by apply strip_eq_trimmed.
Qed.

(** ** Unique directories *)

Lemma int_str_counter (k : nat) :
  int_str (Z.of_nat k + 1) = digits (N.of_nat (S k)).
Proof.
  unfold int_str. destruct (Z.ltb_spec (Z.of_nat k + 1) 0) as [H|H]; [lia|].
  f_equal. lia.
Qed.

Lemma candidate_S (base_name : str) (k : nat) :
  base_name ++ [LPAREN] ++ int_str (Z.of_nat k + 1) ++ [RPAREN]
  = candidate base_name (S k).
Proof. unfold candidate. by rewrite int_str_counter. Qed.

Lemma candidate_inj (base_name : str) (j k : nat) :
  candidate base_name j = candidate base_name k -> j = k.
Proof.
  destruct j as [|j], k as [|k]; unfold candidate; intros E.
  - done.
  - apply (f_equal length) in E. rewrite !length_app in E. simpl in E. lia.
  - apply (f_equal length) in E. rewrite !length_app in E. simpl in E. lia.
  - apply app_inv_head in E. injection E as E.
    apply app_inj_tail in E as [E _].
    apply (f_equal number) in E.
    rewrite !(proj2 (digits_spec _)) in E. lia.
Qed.

Lemma candidates_taken (entries : gset (list N)) (base_name : str) (k : nat) :
  (forall j, (j < k)%nat -> candidate base_name j ∈ entries) ->
  (k <= size entries)%nat.
Proof.
  intros Htaken.
  set (names := candidate base_name <$> seq 0 k).
  assert (NoDup names) as Hnd.
  { apply NoDup_fmap_2_strong; [|apply NoDup_seq].
    intros a b _ _. apply candidate_inj. }
  assert (list_to_set names ⊆ entries) as Hsub.
  { intros x Hx. apply elem_of_list_to_set in Hx.
    apply list_elem_of_fmap in Hx as (j & -> & Hj).
    apply elem_of_seq in Hj. apply Htaken. lia. }
  apply subseteq_size in Hsub.
  rewrite size_list_to_set in Hsub by done.
  unfold names in Hsub. by rewrite length_fmap, length_seq in Hsub.
Qed.

Lemma while_exists_least (fuel : nat) (entries : gset (list N))
    (base_name : str) (k : nat) :
  (forall j, (j < k)%nat -> candidate base_name j ∈ entries) ->
  (size entries < fuel + k)%nat ->
  exists k',
    while_exists fuel entries base_name (candidate base_name k)
      (Z.of_nat k + 1)
    = Some (candidate base_name k')
    /\ (candidate base_name k' ∉ entries)
    /\ forall j, (j < k')%nat -> candidate base_name j ∈ entries.
Proof.
  revert k. induction fuel as [|fuel IH]; intros k Htaken Hfuel.
  - apply candidates_taken in Htaken. lia.
  - cbn [while_exists]. case_bool_decide as Hin.
    + rewrite candidate_S.
      replace (Z.of_nat k + 1 + 1)%Z with (Z.of_nat (S k) + 1)%Z by lia.
      apply IH; [|lia]. intros j Hj.
      destruct (decide (j = k)) as [->|Hne]; [done|]. apply Htaken. lia.
    + by exists k.
Qed.




(** * Properties of the playlist page parser *)

(** ** What the parser collects *)

Lemma handle_starttag_ok (self : SongParser) (tag : str) (attrs : attributes)
    (self' : SongParser) :
  parser_ok self -> handle_starttag self tag attrs = Handled self' ->
  parser_ok self' /\ song_links self' = song_links self.
Proof.
  intros [Hlinks Hcur]. unfold handle_starttag.
  destruct (if bool_decide (tag = utf8 "ul") then class_f_hide attrs
            else Some false) as [entered|]; [|done].
  set (self1 := if entered
                then mkSongParser true (current_song self) (song_links self)
                else self).
  assert (parser_ok self1 /\ song_links self1 = song_links self) as [H1 E1].
  { unfold self1. by destruct entered. }
  destruct (in_song_list self1 && bool_decide (tag = utf8 "a"));
    [|by intros [= <-]].
  destruct (_get_attr_value attrs (utf8 "href")) as [h|]; [|by intros [= <-]].
  destruct (nonempty h && startswith (utf8 "/song") h) eqn:Hh;
    [|by intros [= <-]].
  intros [= <-]. apply andb_true_iff in Hh as [_ Hh].
  split; [|done]. split; simpl; [by rewrite E1|]. by split.
Qed.

Lemma handle_data_ok (self : SongParser) (data : str) :
  parser_ok self ->
  parser_ok (handle_data self data)
  /\ song_links (handle_data self data) = song_links self.
Proof.
  intros Hok. unfold handle_data.
  destruct (current_song self) as [current|] eqn:Ec; [|done].
  destruct (in_song_list self); [|done].
  destruct (strip data) as [|c rest] eqn:Es; [done|].
  cbn [nonempty]. split; [|done]. destruct Hok as [Hlinks Hcur].
  rewrite Ec in Hcur. destruct Hcur as [Hhref _].
  split; [done|]. simpl. split; [done|]. simpl. split; [done|].
  rewrite <- Es. apply strip_by_idemp.
Qed.

Lemma has_name_complete (s : song) :
  pending_song s -> has_name s = true -> complete_song s.
Proof.
  intros [Hhref Hname]. unfold has_name.
  destruct (name s) as [title|] eqn:E; [|done]. intros _.
  split; [done|]. by exists title.
Qed.

Lemma handle_endtag_ok (self : SongParser) (tag : str) :
  parser_ok self ->
  parser_ok (handle_endtag self tag)
  /\ song_links self `prefix_of` song_links (handle_endtag self tag).
Proof.
  intros Hok. unfold handle_endtag.
  set (self1 := match current_song self with
                | Some current =>
                    if bool_decide (tag = utf8 "a") then
                      mkSongParser (in_song_list self) None
                        (if has_name current then song_links self ++ [current]
                         else song_links self)
                    else self
                | None => self
                end).
  assert (parser_ok self1 /\ song_links self `prefix_of` song_links self1)
    as [H1 P1].
  { unfold self1. destruct (current_song self) as [current|] eqn:Ec; [|done].
    case_bool_decide; [|done].
    destruct Hok as [Hlinks Hcur]. rewrite Ec in Hcur.
    destruct (has_name current) eqn:Hn; simpl.
    - split; [|by apply prefix_app_r].
      split; [|done]. simpl. apply Forall_app. split; [done|].
      constructor; [|done]. by apply has_name_complete.
    - by split. }
  destruct (bool_decide (tag = utf8 "ul") && in_song_list self1); [|done].
  split; [|done]. by destruct H1.
Qed.

Lemma handle_ok (self : SongParser) (m : markup) (self' : SongParser) :
  parser_ok self -> handle self m = Handled self' ->
  parser_ok self' /\ song_links self `prefix_of` song_links self'.
Proof.
  intros Hok. destruct m as [tag attrs|data|tag]; simpl.
  - intros H. destruct (handle_starttag_ok _ _ _ _ Hok H) as [? ->]. done.
  - intros [= <-]. destruct (handle_data_ok self data Hok) as [? ->]. done.
  - intros [= <-]. by apply handle_endtag_ok.
Qed.

Lemma feed_ok (self : SongParser) (page : list markup) (self' : SongParser) :
  parser_ok self -> feed self page = Handled self' ->
  parser_ok self' /\ song_links self `prefix_of` song_links self'.
Proof.
  revert self. induction page as [|m page IH]; intros self Hok; simpl.
  - by intros [= <-].
  - destruct (handle self m) as [self1|] eqn:Hm; [|done]. intros Hfeed.
    destruct (handle_ok _ _ _ Hok Hm) as [Hok1 P1].
    destruct (IH _ Hok1 Hfeed) as [Hok' P']. split; [done|].
    by etrans.
Qed.

Lemma feed_app (self : SongParser) (page1 page2 : list markup) :
  feed self (page1 ++ page2)
  = match feed self page1 with
    | Handled self1 => feed self1 page2
    | TypeError => TypeError
    end.
Proof.
  revert self. induction page1 as [|m page1 IH]; intros self; simpl; [done|].
  by destruct (handle self m).
Qed.

(** X13. Whatever the page, every song the parser has collected is a link
    whose address starts with [/song] and has a title that is not empty and
    has no white space at its ends; and reading on never drops or changes a
    song collected so far. *)
Theorem feed_collects_songs (page more : list markup) (self self' : SongParser) :
  feed new_SongParser page = Handled self ->
  feed new_SongParser (page ++ more) = Handled self' ->
  Forall complete_song (song_links self)
  /\ song_links self `prefix_of` song_links self'.
Proof.
  intros H1 H2. rewrite feed_app, H1 in H2.
  assert (parser_ok new_SongParser) as H0 by (by split; [constructor|]).
  destruct (feed_ok _ _ _ H0 H1) as [Hok _].
  destruct (feed_ok _ _ _ Hok H2) as [_ Hprefix].
  by destruct Hok.
Qed.

Lemma feed_collects_songs_example :
  feed new_SongParser (song_list [(utf8 "/song?id=1", utf8 " One ")])
  = Handled (mkSongParser false None [Song (utf8 "/song?id=1") (Some (utf8 "One"))])
  /\ Forall complete_song [Song (utf8 "/song?id=1") (Some (utf8 "One"))].
Proof.
  assert (feed new_SongParser (song_list [(utf8 "/song?id=1", utf8 " One ")])
          = Handled (mkSongParser false None
                       [Song (utf8 "/song?id=1") (Some (utf8 "One"))])) as E
    by (by vm_compute).
  split; [exact E|].
  refine (proj1 (feed_collects_songs _ [] _ _ E _)).
  rewrite app_nil_r. exact E.
Defined.

(** ** Pages of the expected shape *)

Lemma handle_idle (self : SongParser) (m : markup) :
  in_song_list self = false -> current_song self = None ->
  is_start (utf8 "ul") m = false -> handle self m = Handled self.
Proof.
  intros Hin Hcur Hm. destruct m as [tag attrs|data|tag]; simpl in *.
  - unfold handle_starttag. rewrite Hm. by rewrite Hin.
  - unfold handle_data. by rewrite Hcur.
  - unfold handle_endtag. rewrite Hcur, Hin. by rewrite andb_false_r.
Qed.

Lemma feed_idle (self : SongParser) (page : list markup) :
  in_song_list self = false -> current_song self = None ->
  Forall (fun m => is_start (utf8 "ul") m = false) page ->
  feed self page = Handled self.
Proof.
  intros Hin Hcur. induction 1 as [|m page Hm _ IH]; simpl; [done|].
  by rewrite handle_idle.
Qed.

Lemma handle_starttag_other (self : SongParser) (tag : str)
    (attrs : attributes) :
  tag <> utf8 "ul" -> tag <> utf8 "a" ->
  handle_starttag self tag attrs = Handled self.
Proof.
  intros Hul Ha. unfold handle_starttag.
  rewrite (bool_decide_eq_false_2 _ Hul), (bool_decide_eq_false_2 _ Ha).
  by rewrite andb_false_r.
Qed.

Lemma handle_starttag_link (links : list song) (h : str) :
  startswith (utf8 "/song") h = true ->
  handle_starttag (mkSongParser true None links) (utf8 "a")
    [(utf8 "href", Some h)]
  = Handled (mkSongParser true (Some (Song h None)) links).
Proof.
  intros Hh. unfold handle_starttag.
  rewrite (bool_decide_eq_false_2 (utf8 "a" = utf8 "ul")) by done.
  rewrite (bool_decide_eq_true_2 (utf8 "a" = utf8 "a")) by done.
  cbn [in_song_list andb _get_attr_value].
  rewrite (bool_decide_eq_true_2 (utf8 "href" = utf8 "href")) by done.
  rewrite Hh. by destruct h.
Qed.

Lemma handle_data_title (links : list song) (h title : str) :
  strip title <> [] ->
  handle_data (mkSongParser true (Some (Song h None)) links) title
  = mkSongParser true (Some (Song h (Some (strip title)))) links.
Proof.
  intros Ht. unfold handle_data. cbn [current_song in_song_list].
  by destruct (strip title).
Qed.

Lemma handle_endtag_link (links : list song) (h title : str) :
  title <> [] ->
  handle_endtag (mkSongParser true (Some (Song h (Some title))) links)
    (utf8 "a")
  = mkSongParser true None (links ++ [Song h (Some title)]).
Proof.
  intros Ht. unfold handle_endtag. cbn [current_song].
  rewrite (bool_decide_eq_true_2 (utf8 "a" = utf8 "a")) by done.
  rewrite (bool_decide_eq_false_2 (utf8 "a" = utf8 "ul")) by done.
  cbn [andb in_song_list song_links has_name name]. by destruct title.
Qed.

Lemma handle_endtag_other (self : SongParser) (tag : str) :
  tag <> utf8 "ul" -> tag <> utf8 "a" -> handle_endtag self tag = self.
Proof.
  intros Hul Ha. unfold handle_endtag.
  rewrite (bool_decide_eq_false_2 _ Hul), (bool_decide_eq_false_2 _ Ha).
  by destruct (current_song self).
Qed.

Lemma feed_song_items (links : list song) (entries : list (list N * list N)) :
  Forall (fun entry =>
            startswith (utf8 "/song") entry.1 = true /\ strip entry.2 <> [])
    entries ->
  feed (mkSongParser true None links) (concat (song_item <$> entries))
  = Handled (mkSongParser true None (links ++ (entry_song <$> entries))).
Proof.
  intros H. revert links.
  induction H as [|[h title] entries [Hh Ht] _ IH]; intros links.
  - simpl. by rewrite app_nil_r.
  - cbn [fst snd] in Hh, Ht. rewrite fmap_cons. cbn [concat]. rewrite feed_app.
    assert (feed (mkSongParser true None links) (song_item (h, title))
            = Handled (mkSongParser true None (links ++ [entry_song (h, title)])))
      as ->.
    { unfold song_item, entry_song. cbn [feed handle fst snd].
      rewrite handle_starttag_other by done.
      rewrite handle_starttag_link by done.
      rewrite handle_data_title by done.
      rewrite handle_endtag_link by done.
      by rewrite handle_endtag_other by done. }
    rewrite IH. by rewrite <- app_assoc.
Qed.

(** X14. On a page whose only list is the hidden list of the songs, each a
    list item with a link to a song around a title, the parser collects
    exactly these songs, in the order of the page, with the white space
    around each title removed; what stands before and after the list is
    ignored. *)
Theorem feed_song_list (before after : list markup)
    (entries : list (list N * list N)) :
  Forall (fun m => is_start (utf8 "ul") m = false) before ->
  Forall (fun m => is_start (utf8 "ul") m = false) after ->
  Forall (fun entry =>
            startswith (utf8 "/song") entry.1 = true /\ strip entry.2 <> [])
    entries ->
  feed new_SongParser (before ++ song_list entries ++ after)
  = Handled (mkSongParser false None (entry_song <$> entries)).
Proof.
  intros Hbefore Hafter Hentries.
  rewrite feed_app, (feed_idle new_SongParser before) by done.
  rewrite feed_app. unfold song_list.
  change (feed new_SongParser
            ([StartTag (utf8 "ul") [(utf8 "class", Some (utf8 "f-hide"))]]
             ++ concat (song_item <$> entries) ++ [EndTag (utf8 "ul")]))
    with (feed (mkSongParser true None [])
            (concat (song_item <$> entries) ++ [EndTag (utf8 "ul")])).
  rewrite feed_app, feed_song_items by done. simpl.
  change (handle_endtag _ (utf8 "ul"))
    with (mkSongParser false None (entry_song <$> entries)).
  by apply feed_idle.
Qed.

Lemma feed_song_list_example :
  feed new_SongParser
    ([StartTag (utf8 "h1") []; Data (utf8 "Playlist"); EndTag (utf8 "h1")]
     ++ song_list [(utf8 "/song?id=1", utf8 " One "); (utf8 "/song?id=2", utf8 "Two")]
     ++ [StartTag (utf8 "a") [(utf8 "href", Some (utf8 "/song?id=3"))];
         Data (utf8 "Three"); EndTag (utf8 "a")])
  = Handled (mkSongParser false None
               [Song (utf8 "/song?id=1") (Some (utf8 "One"));
                Song (utf8 "/song?id=2") (Some (utf8 "Two"))]).
Proof.
  apply (feed_song_list
           [StartTag (utf8 "h1") []; Data (utf8 "Playlist"); EndTag (utf8 "h1")]
           [StartTag (utf8 "a") [(utf8 "href", Some (utf8 "/song?id=3"))];
            Data (utf8 "Three"); EndTag (utf8 "a")]
           [(utf8 "/song?id=1", utf8 " One "); (utf8 "/song?id=2", utf8 "Two")]).
  - repeat constructor.
  - repeat constructor.
  - repeat constructor; by vm_compute.
Defined.

(** X15. A page without the start tag of a list yields no song, whatever
    links it holds. *)
Theorem feed_without_list (page : list markup) :
  Forall (fun m => is_start (utf8 "ul") m = false) page ->
  feed new_SongParser page = Handled new_SongParser.
Proof. by apply feed_idle. Qed.

Lemma feed_without_list_example :
  feed new_SongParser
    [StartTag (utf8 "a") [(utf8 "href", Some (utf8 "/song?id=3"))];
     Data (utf8 "Three"); EndTag (utf8 "a")]
  = Handled new_SongParser.
Proof.
  apply feed_without_list. repeat constructor.
Defined.

(** ** Pages the parser fails on *)

Lemma class_f_hide_None (attrs : attributes) :
  class_f_hide attrs = None <-> valueless_class attrs.
Proof.
  unfold valueless_class. induction attrs as [|[attr value] attrs IH]; simpl.
  - split; [done|]. intros (before & after & E & _). by destruct before.
  - case_bool_decide as Hattr.
    + destruct value as [value|].
      * destruct (contains_str (utf8 "f-hide") value) eqn:Hv.
        -- split; [done|]. intros (before & after & E & Hb).
           destruct before as [|av before]; [done|].
           injection E as <- _. apply Forall_cons in Hb as [Hb _].
           destruct (Hb Hattr) as (w & [= <-] & Hw). congruence.
        -- rewrite IH. split.
           ++ intros (before & after & -> & Hb).
              exists ((attr, Some value) :: before), after. split; [done|].
              constructor; [|done]. intros _. by exists value.
           ++ intros (before & after & E & Hb).
              destruct before as [|av before]; [done|].
              injection E as <- ->. apply Forall_cons in Hb as [_ Hb].
              by exists before, after.
      * split; [|done]. intros _. exists [], attrs. subst attr.
        by split; [|constructor].
    + rewrite IH. split.
      * intros (before & after & -> & Hb).
        exists ((attr, value) :: before), after. split; [done|].
        constructor; [|done]. by intros ?.
      * intros (before & after & E & Hb).
        destruct before as [|av before].
        -- by injection E as E _ _.
        -- injection E as <- ->. apply Forall_cons in Hb as [_ Hb].
           by exists before, after.
Qed.

Lemma handle_TypeError (self : SongParser) (m : markup) :
  handle self m = TypeError
  <-> exists attrs, m = StartTag (utf8 "ul") attrs /\ class_f_hide attrs = None.
Proof.
  destruct m as [tag attrs|data|tag]; simpl.
  - unfold handle_starttag. case_bool_decide as Htag.
    + destruct (class_f_hide attrs) as [entered|] eqn:Hc.
      * split.
        -- repeat case_match; done.
        -- intros (attrs' & [= _ <-] & H). congruence.
      * split; [|done]. intros _. exists attrs. by subst.
    + split.
      * repeat case_match; done.
      * intros (attrs' & [= E _] & _). done.
  - split; [done|]. by intros (? & ? & _).
  - split; [done|]. by intros (? & ? & _).
Qed.

(** X16. The parser fails, with a [TypeError], exactly on the pages that
    have a list start tag whose [class] attribute has no value and is not
    preceded by a [class] holding [f-hide]; where the tag stands, and what
    the parser has read before it, makes no difference. *)
Theorem feed_TypeError (self : SongParser) (page : list markup) :
  feed self page = TypeError
  <-> exists attrs,
        StartTag (utf8 "ul") attrs ∈ page /\ valueless_class attrs.
Proof.
  revert self. induction page as [|m page IH]; intros self; simpl.
  - split; [done|]. intros (attrs & H & _). by apply elem_of_nil in H.
  - destruct (handle self m) as [self'|] eqn:Hm.
    + rewrite IH. split.
      * intros (attrs & Hin & Hv). exists attrs. split; [by right|done].
      * intros (attrs & Hin & Hv). exists attrs. split; [|done].
        apply elem_of_cons in Hin as [<-|Hin]; [|done].
        assert (handle self (StartTag (utf8 "ul") attrs) = TypeError) as E.
        { apply handle_TypeError. exists attrs. split; [done|].
          by apply class_f_hide_None. }
        congruence.
    + split; [|done]. intros _.
      apply handle_TypeError in Hm as (attrs & -> & Hc).
      exists attrs. split; [by left|]. by apply class_f_hide_None.
Qed.

(** ** The addresses of the songs *)

Lemma startswith_app (prefix rest s : str) :
  startswith (prefix ++ rest) (prefix ++ s) = startswith rest s.
Proof.
  induction prefix as [|c prefix IH]; [done|]. simpl.
  by rewrite N.eqb_refl, IH.
Qed.

Lemma add_song_url_complete (s : song) (song_urls : list str) :
  complete_song s ->
  add_song_url s song_urls
  = mkPy (Return (song_urls ++ [song_address s])) [found_line s].
Proof.
  intros [Hhref (title & Hname & Hne & _)]. unfold add_song_url.
  assert (nonempty (href s) = true) as -> by (by destruct (href s)).
  assert (has_name s = true) as ->.
  { unfold has_name. rewrite Hname. by destruct title. }
  done.
Qed.

Lemma for_each_add_song_url (songs : list song) (song_urls : list str) :
  Forall complete_song songs ->
  for_each songs add_song_url song_urls
  = mkPy (Return (song_urls ++ (song_address <$> songs)))
      (found_line <$> songs).
Proof.
  intros H. revert song_urls.
  induction H as [|s songs Hs _ IH]; intros song_urls; cbn [for_each].
  - by rewrite app_nil_r.
  - rewrite add_song_url_complete by done.
    unfold mbind, Py_bind. cbn [result printed]. rewrite IH.
    cbn [result printed]. by rewrite <- app_assoc.
Qed.

(** X17. From the songs the parser collected on a page,
    [get_songs_url_list] makes one address per song, in the same order:
    the site followed by the link of the song, so that every address
    starts with [https://music.163.com/song].  It prints one line per song
    and one more. *)
Theorem get_songs_url_list_of_page (page : list markup) (self : SongParser) :
  feed new_SongParser page = Handled self ->
  exists lines,
    get_songs_url_list (song_links self)
    = mkPy (Return (song_address <$> song_links self)) lines
    /\ length lines = S (length (song_links self))
    /\ Forall (fun url =>
                 startswith (utf8 "https://music.163.com/song") url = true)
         (song_address <$> song_links self).
Proof.
  intros Hfeed.
  assert (parser_ok new_SongParser) as H0 by (by split; [constructor|]).
  destruct (feed_ok _ _ _ H0 Hfeed) as [[Hsongs _] _].
  assert (Forall (fun url =>
                    startswith (utf8 "https://music.163.com/song") url = true)
            (song_address <$> song_links self)) as Hurls.
  { apply Forall_fmap. eapply Forall_impl; [exact Hsongs|].
    intros s [Hhref _]. cbv beta. unfold song_address.
    by rewrite <- (startswith_app (utf8 "https://music.163.com")) in Hhref. }
  destruct (song_links self) as [|s songs] eqn:E.
  - eexists. split; [reflexivity|]. by split.
  - unfold get_songs_url_list.
    rewrite (for_each_add_song_url (s :: songs) []) by done.
    unfold mbind, Py_bind, mret, Py_ret, print. cbn [result printed].
    eexists. split; [reflexivity|]. split; [|done].
    rewrite app_nil_r, length_app, length_fmap. simpl. lia.
Qed.

Lemma get_songs_url_list_of_page_example :
  feed new_SongParser
    (song_list [(utf8 "/song?id=1", utf8 " One "); (utf8 "/song?id=2", utf8 "Two")])
  = Handled (mkSongParser false None
               [Song (utf8 "/song?id=1") (Some (utf8 "One"));
                Song (utf8 "/song?id=2") (Some (utf8 "Two"))])
  /\ exists lines,
       get_songs_url_list
         [Song (utf8 "/song?id=1") (Some (utf8 "One"));
          Song (utf8 "/song?id=2") (Some (utf8 "Two"))]
       = mkPy (Return [utf8 "https://music.163.com/song?id=1";
                       utf8 "https://music.163.com/song?id=2"]) lines
       /\ length lines = 3%nat.
Proof.
  assert (feed new_SongParser
            (song_list [(utf8 "/song?id=1", utf8 " One ");
                        (utf8 "/song?id=2", utf8 "Two")])
          = Handled (mkSongParser false None
                       [Song (utf8 "/song?id=1") (Some (utf8 "One"));
                        Song (utf8 "/song?id=2") (Some (utf8 "Two"))])) as E
    by (by vm_compute).
  split; [exact E|].
  destruct (get_songs_url_list_of_page _ _ E) as (lines & H1 & H2 & _).
  exists lines. split; [exact H1|exact H2].
Defined.

(** ** One song per link at most *)

Lemma count_cons {A} (p : A -> bool) (x : A) (l : list A) :
  count p (x :: l) = ((if p x then 1 else 0) + count p l)%nat.
Proof.
  unfold count. rewrite filter_cons. by destruct (p x); case_decide.
Qed.

Lemma handle_counts (self : SongParser) (m : markup) (self' : SongParser) :
  handle self m = Handled self' ->
  (length (song_links self')
   <= length (song_links self) + (if is_end (utf8 "a") m then 1 else 0))%nat
  /\ (length (song_links self') + length (option_list (current_song self'))
      <= length (song_links self) + length (option_list (current_song self))
         + (if is_start (utf8 "a") m then 1 else 0))%nat.
Proof.
  destruct m as [tag attrs|data|tag]; simpl.
  - unfold handle_starttag.
    destruct (if bool_decide (tag = utf8 "ul") then class_f_hide attrs
              else Some false) as [entered|]; [|done].
    set (self1 := if entered
                  then mkSongParser true (current_song self) (song_links self)
                  else self).
    assert (song_links self1 = song_links self
            /\ current_song self1 = current_song self) as [E1 E2]
      by (unfold self1; by destruct entered).
    destruct (in_song_list self1); cbn [andb].
    + case_bool_decide.
      * destruct (_get_attr_value attrs (utf8 "href")) as [h|].
        -- destruct (nonempty h && startswith (utf8 "/song") h);
             intros [= <-]; simpl; rewrite ?E1, ?E2;
             destruct (current_song self); simpl; lia.
        -- intros [= <-]. rewrite E1, E2. lia.
      * intros [= <-]. rewrite E1, E2. lia.
    + intros [= <-]. rewrite E1, E2. lia.
  - intros [= <-]. unfold handle_data.
    destruct (current_song self) as [current|] eqn:Ec; [|rewrite Ec; lia].
    destruct (in_song_list self); [|rewrite Ec; simpl; lia].
    destruct (nonempty (strip data)); [|rewrite Ec; simpl; lia].
    simpl. lia.
  - intros [= <-]. unfold handle_endtag.
    set (self1 := match current_song self with
                  | Some current =>
                      if bool_decide (tag = utf8 "a") then
                        mkSongParser (in_song_list self) None
                          (if has_name current
                           then song_links self ++ [current]
                           else song_links self)
                      else self
                  | None => self
                  end).
    assert ((length (song_links self1)
             <= length (song_links self)
                + (if bool_decide (tag = utf8 "a") then 1 else 0))%nat
            /\ (length (song_links self1)
                + length (option_list (current_song self1))
                <= length (song_links self)
                   + length (option_list (current_song self)))%nat)
      as [H1 H2].
    { unfold self1. destruct (current_song self) as [current|] eqn:Ec.
      - case_bool_decide.
        + destruct (has_name current); simpl; rewrite ?length_app; simpl; lia.
        + rewrite Ec. simpl. lia.
      - rewrite Ec. simpl. lia. }
    destruct (bool_decide (tag = utf8 "ul") && in_song_list self1);
      simpl; lia.
Qed.

Lemma feed_counts (self : SongParser) (page : list markup)
    (self' : SongParser) :
  feed self page = Handled self' ->
  (length (song_links self')
   <= length (song_links self) + count (is_end (utf8 "a")) page)%nat
  /\ (length (song_links self') + length (option_list (current_song self'))
      <= length (song_links self) + length (option_list (current_song self))
         + count (is_start (utf8 "a")) page)%nat.
Proof.
  revert self. induction page as [|m page IH]; intros self; simpl.
  - intros [= <-]. unfold count. simpl. lia.
  - destruct (handle self m) as [self1|] eqn:Hm; [|done]. intros Hfeed.
    apply handle_counts in Hm as [Hm1 Hm2].
    apply IH in Hfeed as [IH1 IH2]. rewrite !count_cons. lia.
Qed.

(** X18. The parser collects at most one song per link: on any page the
    songs are no more than the start tags of links, and no more than the
    end tags of links. *)
Theorem feed_song_count (page : list markup) (self : SongParser) :
  feed new_SongParser page = Handled self ->
  (length (song_links self) <= count (is_start (utf8 "a")) page)%nat
  /\ (length (song_links self) <= count (is_end (utf8 "a")) page)%nat.
Proof.
  intros Hfeed. apply feed_counts in Hfeed as [H1 H2]. simpl in H1, H2.
  lia.
Qed.

Lemma feed_song_count_example :
  feed new_SongParser
    [StartTag (utf8 "ul") [(utf8 "class", Some (utf8 "m-list f-hide"))];
     StartTag (utf8 "a") [(utf8 "href", Some (utf8 "/song?id=1"))];
     StartTag (utf8 "a") [(utf8 "href", Some (utf8 "/artist?id=7"))];
     Data (utf8 "One"); EndTag (utf8 "a"); EndTag (utf8 "a")]
  = Handled (mkSongParser true None
               [Song (utf8 "/song?id=1") (Some (utf8 "One"))])
  /\ (1 <= 2)%nat.
Proof.
  assert (feed new_SongParser
            [StartTag (utf8 "ul") [(utf8 "class", Some (utf8 "m-list f-hide"))];
             StartTag (utf8 "a") [(utf8 "href", Some (utf8 "/song?id=1"))];
             StartTag (utf8 "a") [(utf8 "href", Some (utf8 "/artist?id=7"))];
             Data (utf8 "One"); EndTag (utf8 "a"); EndTag (utf8 "a")]
          = Handled (mkSongParser true None
                       [Song (utf8 "/song?id=1") (Some (utf8 "One"))])) as E
    by (by vm_compute).
  split; [exact E|].
  exact (proj1 (feed_song_count _ _ E)).
Defined.

(** * Properties of the requests with retries *)

(** ** The loop the two functions share *)

Lemma range_nonpos (stop : Z) : (stop <= 0)%Z -> range stop = [].
Proof. intros H. unfold range. by replace (Z.to_nat stop) with O by lia. Qed.

Lemma download_attempts_retry (tries : Z -> attempt unit) (url filepath : str)
    (max_retries : Z) (attempts : list Z) :
  download_attempts tries url filepath max_retries attempts
  = retry tries url
      (fun _ => mkRun (Returns (Some true))
                  [Printed (utf8 "✓ 文件已保存: " ++ filepath)])
      (Some false)
      (fun attempt e =>
         utf8 "✗ 下载失败 (尝试 " ++ int_str (attempt + 1)
           ++ utf8 "/" ++ int_str max_retries ++ utf8 "): " ++ e)
      None max_retries attempts.
Proof.
  induction attempts as [|attempt attempts IH]; [done|].
  cbn [download_attempts retry]. rewrite IH.
  by destruct (tries attempt).
Qed.

Lemma song_data_attempts_retry {J} (tries : Z -> attempt J) (song_url : str)
    (max_retries : Z) (attempts : list Z) :
  song_data_attempts tries song_url max_retries attempts
  = retry tries (api_url song_url)
      (fun json => mkRun (Returns (Some json)) [])
      None
      (fun attempt e =>
         utf8 "✗ 获取歌曲数据失败 (尝试 " ++ int_str (attempt + 1)
           ++ utf8 "/" ++ int_str max_retries ++ utf8 "): " ++ e)
      None max_retries attempts.
Proof.
  induction attempts as [|attempt attempts IH]; [done|].
  cbn [song_data_attempts retry]. rewrite IH.
  by destruct (tries attempt).
Qed.

Section Retry.

Context {A R : Type}.
Variable tries : Z -> attempt A.
Variable url : str.
Variable on_success : A -> run R.
Variable given_up : R.
Variable failed_line : Z -> list N -> list N.
Variable exhausted : R.
Variable n : nat.

Hypothesis on_success_quiet :
  forall a,
    Forall (fun act => is_request act = false /\ is_wait act = false)
      (actions (on_success a)).

Local Abbreviation rest_of_loop :=
  (attempts_from tries url on_success given_up failed_line exhausted n).

Lemma rest_of_loop_S (a len : nat) :
  (a + S len = n)%nat ->
  rest_of_loop a (S len)
  = match tries (Z.of_nat a) with
    | Completes v =>
        mkRun (ended (on_success v)) (Requested url :: actions (on_success v))
    | RequestException e =>
        match len with
        | O =>
            mkRun (Returns given_up)
              [Requested url; Printed (failed_line (Z.of_nat a) e)]
        | S _ =>
            mkRun (ended (rest_of_loop (S a) len))
              ([Requested url; Printed (failed_line (Z.of_nat a) e);
                Printed (utf8 "等待 " ++ int_str ((Z.of_nat a + 1) * 5)
                           ++ utf8 " 秒后重试...");
                Slept ((Z.of_nat a + 1) * 5)]
               ++ actions (rest_of_loop (S a) len))
        end
    | OtherException => mkRun Propagates [Requested url]
    end.
Proof.
  intros Hn. unfold attempts_from. cbn [seq fmap list_fmap retry].
  destruct (tries (Z.of_nat a)) as [v|e|]; [done| |done].
  destruct (Z.ltb_spec (Z.of_nat a) (Z.of_nat n - 1)) as [H|H];
    destruct len; try lia; done.
Qed.

Lemma quiet_waited (acts : list action) :
  Forall (fun act => is_request act = false /\ is_wait act = false) acts ->
  waited acts = 0%Z /\ count is_request acts = O.
Proof.
  induction 1 as [|act acts [H1 H2] _ [IH1 IH2]]; [done|].
  rewrite count_cons, H1, IH2. split; [|done].
  destruct act; simpl in *; done.
Qed.

Lemma rest_of_loop_all_fail (a len : nat) :
  (a + len = n)%nat ->
  (forall j, (a <= j < n)%nat -> fails tries (Z.of_nat j)) ->
  ended (rest_of_loop a len)
  = Returns (match len with O => exhausted | S _ => given_up end)
  /\ count is_request (actions (rest_of_loop a len)) = len
  /\ (2 * waited (actions (rest_of_loop a len))
      = match len with
        | O => 0
        | S _ => 5 * (Z.of_nat n * (Z.of_nat n - 1)
                      - Z.of_nat a * (Z.of_nat a + 1))
        end)%Z.
Proof.
  revert a. induction len as [|len IH]; intros a Hn Hfail.
  - done.
  - rewrite rest_of_loop_S by done.
    destruct (Hfail a) as [e ->]; [lia|].
    destruct len as [|len'].
    + split; [done|]. split; [done|]. simpl. nia.
    + destruct (IH (S a)) as (IH1 & IH2 & IH3); [lia| |].
      { intros j Hj. apply Hfail. lia. }
      cbn [ended actions]. split; [done|].
      split.
      * cbn [app]. rewrite !count_cons. simpl. by rewrite IH2.
      * cbn [app waited]. nia.
Qed.

Lemma rest_of_loop_first (a len k : nat) :
  (a + len = n)%nat -> (a <= k < n)%nat ->
  (forall j, (a <= j < k)%nat -> fails tries (Z.of_nat j)) ->
  ~ fails tries (Z.of_nat k) ->
  ended (rest_of_loop a len)
  = match tries (Z.of_nat k) with
    | Completes v => ended (on_success v)
    | _ => Propagates
    end
  /\ count is_request (actions (rest_of_loop a len)) = S (k - a)
  /\ (2 * waited (actions (rest_of_loop a len))
      = 5 * (Z.of_nat k * (Z.of_nat k + 1) - Z.of_nat a * (Z.of_nat a + 1)))%Z.
Proof.
  revert a. induction len as [|len IH]; intros a Hn Hk Hfail Hdec; [lia|].
  rewrite rest_of_loop_S by done.
  destruct (decide (a = k)) as [->|Hne].
  - destruct (tries (Z.of_nat k)) as [v|e|] eqn:E.
    + cbn [ended actions]. split; [done|].
      destruct (quiet_waited _ (on_success_quiet v)) as [Hw Hr].
      rewrite count_cons, Hr. cbn [waited]. rewrite Hw. split; [|lia].
      simpl. lia.
    + exfalso. apply Hdec. by exists e.
    + split; [done|]. split; [|simpl; lia].
      cbn [actions]. rewrite count_cons. unfold count. simpl. lia.
  - destruct (Hfail a) as [e ->]; [lia|].
    destruct len as [|len']; [lia|].
    destruct (IH (S a)) as (IH1 & IH2 & IH3); [lia|lia| |done|].
    { intros j Hj. apply Hfail. lia. }
    cbn [ended actions]. split; [done|]. split.
    + cbn [app]. rewrite !count_cons. simpl. rewrite IH2. lia.
    + cbn [app waited]. nia.
Qed.

Lemma first_decisive (a len : nat) :
  (a + len = n)%nat ->
  (forall j, (a <= j < n)%nat -> fails tries (Z.of_nat j))
  \/ exists k,
       (a <= k < n)%nat
       /\ (forall j, (a <= j < k)%nat -> fails tries (Z.of_nat j))
       /\ ~ fails tries (Z.of_nat k).
Proof.
  revert a. induction len as [|len IH]; intros a Hn.
  - left. intros j Hj. lia.
  - destruct (tries (Z.of_nat a)) as [v|e|] eqn:E.
    + right. exists a. split; [lia|]. split; [intros j Hj; lia|].
      intros [e' He']. congruence.
    + destruct (IH (S a)) as [Hall|(k & Hk & Hbefore & Hdec)]; [lia| |].
      * left. intros j Hj. destruct (decide (j = a)) as [->|Hne].
        -- by exists e.
        -- apply Hall. lia.
      * right. exists k. split; [lia|]. split; [|done].
        intros j Hj. destruct (decide (j = a)) as [->|Hne].
        -- by exists e.
        -- apply Hbefore. lia.
    + right. exists a. split; [lia|]. split; [intros j Hj; lia|].
      intros [e' He']. congruence.
Qed.

End Retry.

(** What a retry loop over [range(max_retries)] comes to: no attempt at
    all, every attempt failed, or a first attempt that did not fail. *)
Lemma retry_range {A R} (tries : Z -> attempt A) (url : str)
    (on_success : A -> run R) (given_up : R)
    (failed_line : Z -> list N -> list N) (exhausted : R) (max_retries : Z) :
  (forall a,
     Forall (fun act => is_request act = false /\ is_wait act = false)
       (actions (on_success a))) ->
  let r := retry tries url on_success given_up failed_line exhausted
             max_retries (range max_retries) in
  ((max_retries <= 0)%Z /\ r = mkRun (Returns exhausted) [])
  \/ ((0 < max_retries)%Z
      /\ (forall j, (0 <= j < max_retries)%Z -> fails tries j)
      /\ ended r = Returns given_up
      /\ Z.of_nat (count is_request (actions r)) = max_retries
      /\ (2 * waited (actions r) = 5 * max_retries * (max_retries - 1))%Z)
  \/ (exists k,
        (0 <= k < max_retries)%Z
        /\ (forall j, (0 <= j < k)%Z -> fails tries j)
        /\ ~ fails tries k
        /\ ended r = match tries k with
                     | Completes v => ended (on_success v)
                     | _ => Propagates
                     end
        /\ Z.of_nat (count is_request (actions r)) = (k + 1)%Z
        /\ (2 * waited (actions r) = 5 * k * (k + 1))%Z).
Proof.
  intros Hquiet r.
  destruct (Z.le_gt_cases max_retries 0) as [Hmax|Hmax].
  { left. split; [done|]. unfold r. by rewrite range_nonpos. }
  right. set (n := Z.to_nat max_retries).
  assert (r = attempts_from tries url on_success given_up failed_line
                exhausted n 0 n) as Hr.
  { unfold r, attempts_from, range. fold n. f_equal. unfold n. lia. }
  destruct (first_decisive tries n 0 n) as [Hall|(k & Hk & Hbefore & Hdec)];
    [done| |].
  - left. split; [lia|].
    destruct (rest_of_loop_all_fail tries url on_success given_up failed_line
                exhausted n 0 n) as (H1 & H2 & H3); [done|done|].
    rewrite <- Hr in H1, H2, H3. split.
    { intros j Hj. replace j with (Z.of_nat (Z.to_nat j)) by lia.
      apply Hall. lia. }
    destruct n as [|n'] eqn:En; [lia|].
    split; [done|]. split; [lia|]. rewrite H3. nia.
  - right. exists (Z.of_nat k).
    destruct (rest_of_loop_first tries url on_success given_up failed_line
                exhausted n Hquiet 0 n k) as (H1 & H2 & H3);
      [done|done|done|done|].
    rewrite <- Hr in H1, H2, H3. split; [lia|]. split.
    { intros j Hj. replace j with (Z.of_nat (Z.to_nat j)) by lia.
      apply Hbefore. lia. }
    split; [done|]. split; [done|]. split; [lia|]. rewrite H3. simpl. lia.
Qed.

Lemma fails_Completes {A} (tries : Z -> attempt A) (k : Z) (v : A) :
  tries k = Completes v -> ~ fails tries k.
Proof. intros E [e He]. congruence. Qed.

Lemma fails_OtherException {A} (tries : Z -> attempt A) (k : Z) :
  tries k = OtherException -> ~ fails tries k.
Proof. intros E [e He]. congruence. Qed.

(** Two first attempts that did not fail are the same attempt. *)
Lemma first_decisive_unique {A} (tries : Z -> attempt A) (k k' : Z) :
  (0 <= k)%Z -> (0 <= k')%Z ->
  (forall j, (0 <= j < k)%Z -> fails tries j) -> ~ fails tries k ->
  (forall j, (0 <= j < k')%Z -> fails tries j) -> ~ fails tries k' ->
  k = k'.
Proof.
  intros Hk Hk' Hb Hd Hb' Hd'.
  destruct (Z.lt_trichotomy k k') as [H|[H|H]]; [|done|].
  - exfalso. apply Hd, Hb'. lia.
  - exfalso. apply Hd', Hb. lia.
Qed.

Lemma download_binary_file_range (tries : Z -> attempt unit)
    (url filepath : str) (max_retries : Z) :
  let r := download_binary_file tries url filepath max_retries in
  ((max_retries <= 0)%Z /\ r = mkRun (Returns None) [])
  \/ ((0 < max_retries)%Z
      /\ (forall j, (0 <= j < max_retries)%Z -> fails tries j)
      /\ ended r = Returns (Some false)
      /\ Z.of_nat (count is_request (actions r)) = max_retries
      /\ (2 * waited (actions r) = 5 * max_retries * (max_retries - 1))%Z)
  \/ (exists k,
        (0 <= k < max_retries)%Z
        /\ (forall j, (0 <= j < k)%Z -> fails tries j)
        /\ ~ fails tries k
        /\ ended r = match tries k with
                     | Completes _ => Returns (Some true)
                     | _ => Propagates
                     end
        /\ Z.of_nat (count is_request (actions r)) = (k + 1)%Z
        /\ (2 * waited (actions r) = 5 * k * (k + 1))%Z).
Proof.
  unfold download_binary_file. rewrite download_attempts_retry.
  apply retry_range. intros _. by repeat constructor.
Qed.

Lemma get_song_data_range {J} (tries : Z -> attempt J) (song_url : str)
    (max_retries : Z) :
  let r := get_song_data tries song_url max_retries in
  ((max_retries <= 0)%Z /\ r = mkRun (Returns None) [])
  \/ ((0 < max_retries)%Z
      /\ (forall j, (0 <= j < max_retries)%Z -> fails tries j)
      /\ ended r = Returns None
      /\ Z.of_nat (count is_request (actions r)) = max_retries
      /\ (2 * waited (actions r) = 5 * max_retries * (max_retries - 1))%Z)
  \/ (exists k,
        (0 <= k < max_retries)%Z
        /\ (forall j, (0 <= j < k)%Z -> fails tries j)
        /\ ~ fails tries k
        /\ ended r = match tries k with
                     | Completes json => Returns (Some json)
                     | _ => Propagates
                     end
        /\ Z.of_nat (count is_request (actions r)) = (k + 1)%Z
        /\ (2 * waited (actions r) = 5 * k * (k + 1))%Z).
Proof.
  unfold get_song_data. rewrite song_data_attempts_retry.
  apply (retry_range tries (api_url song_url)
           (fun json => mkRun (Returns (Some json)) [])).
  intros json. constructor.
Qed.

(** ** How a download ends *)

(** X19. [download_binary_file] returns [True] exactly when some attempt
    within the allowed number completes after every earlier one failed with
    a request exception; [False] exactly when at least one attempt is
    allowed and all of them fail so; [None] exactly when no attempt is
    allowed; and it lets an exception through exactly when the first
    attempt that does not fail so raises another exception. *)
Theorem download_binary_file_ending (tries : Z -> attempt unit)
    (url filepath : str) (max_retries : Z) :
  (ended (download_binary_file tries url filepath max_retries)
   = Returns (Some true)
   <-> exists k,
         (0 <= k < max_retries)%Z /\ tries k = Completes tt
         /\ forall j, (0 <= j < k)%Z -> fails tries j)
  /\ (ended (download_binary_file tries url filepath max_retries)
      = Returns (Some false)
      <-> (0 < max_retries)%Z
          /\ forall j, (0 <= j < max_retries)%Z -> fails tries j)
  /\ (ended (download_binary_file tries url filepath max_retries)
      = Returns None
      <-> (max_retries <= 0)%Z)
  /\ (ended (download_binary_file tries url filepath max_retries) = Propagates
      <-> exists k,
            (0 <= k < max_retries)%Z /\ tries k = OtherException
            /\ forall j, (0 <= j < k)%Z -> fails tries j).
Proof.
  destruct (download_binary_file_range tries url filepath max_retries)
    as [[Hmax ->]|[(Hmax & Hall & -> & _)|(k & Hk & Hb & Hd & -> & _)]].
  - cbn [ended]. split; [|split; [|split]].
    + split; [done|]. intros (k & Hk & _). lia.
    + split; [done|]. intros [H _]. lia.
    + done.
    + split; [done|]. intros (k & Hk & _). lia.
  - split; [|split; [|split]].
    + split; [done|]. intros (k & Hk & E & _).
      by destruct (fails_Completes _ _ _ E (Hall k Hk)).
    + done.
    + split; [done|]. lia.
    + split; [done|]. intros (k & Hk & E & _).
      by destruct (fails_OtherException _ _ E (Hall k Hk)).
  - assert (forall k',
              (0 <= k' < max_retries)%Z -> ~ fails tries k' ->
              (forall j, (0 <= j < k')%Z -> fails tries j) -> k' = k) as Huniq.
    { intros k' Hk' Hd' Hb'.
      apply (first_decisive_unique tries); try done; lia. }
    split; [|split; [|split]].
    + split.
      * destruct (tries k) as [[]|e|] eqn:E; [|done|done].
        intros _. by exists k.
      * intros (k' & Hk' & E & Hb').
        rewrite <- (Huniq k' Hk' (fails_Completes _ _ _ E) Hb'). by rewrite E.
    + split.
      * by destruct (tries k).
      * intros [_ Hall]. by destruct (Hd (Hall k Hk)).
    + split; [by destruct (tries k)|]. lia.
    + split.
      * destruct (tries k) as [[]|e|] eqn:E; [done| |].
        -- destruct Hd. by exists e.
        -- intros _. by exists k.
      * intros (k' & Hk' & E & Hb').
        rewrite <- (Huniq k' Hk' (fails_OtherException _ _ E) Hb').
        by rewrite E.
Qed.

(** X20. A download makes no more requests than the allowed number of
    attempts, and waits 5 seconds after the first failure, 10 after the
    second and so on, but never after the last: with [n] attempts allowed
    it waits [5 * n * (n - 1) / 2] seconds at most, and makes all the
    requests and waits exactly that long when it returns [False]. *)
Theorem download_binary_file_effort (tries : Z -> attempt unit)
    (url filepath : str) (max_retries : Z) :
  (Z.of_nat (count is_request
               (actions (download_binary_file tries url filepath max_retries)))
   <= Z.max 0 max_retries)%Z
  /\ (2 * waited (actions (download_binary_file tries url filepath max_retries))
      <= 5 * Z.max 0 max_retries * (Z.max 0 max_retries - 1))%Z
  /\ (ended (download_binary_file tries url filepath max_retries)
      = Returns (Some false) ->
      Z.of_nat (count is_request
                  (actions (download_binary_file tries url filepath max_retries)))
      = max_retries
      /\ (2 * waited
                (actions (download_binary_file tries url filepath max_retries))
          = 5 * max_retries * (max_retries - 1))%Z).
Proof.
  destruct (download_binary_file_range tries url filepath max_retries)
    as [[Hmax ->]|[(Hmax & Hall & -> & Hr & Hw)|(k & Hk & Hb & Hd & -> & Hr & Hw)]].
  - cbn [ended actions]. unfold count. simpl. split; [lia|]. split; [lia|done].
  - rewrite Hr. split; [lia|]. split; [|done]. rewrite Hw.
    replace (Z.max 0 max_retries) with max_retries by lia. lia.
  - rewrite Hr. split; [lia|]. split.
    + rewrite Hw. replace (Z.max 0 max_retries) with max_retries by lia. nia.
    + destruct (tries k); done.
Qed.

Lemma download_binary_file_effort_example :
  ended (download_binary_file (fun _ => RequestException (utf8 "timeout"))
           (utf8 "http://host/a.mp3") (utf8 "a.mp3") 3)
  = Returns (Some false)
  /\ count is_request
       (actions (download_binary_file (fun _ => RequestException (utf8 "timeout"))
                   (utf8 "http://host/a.mp3") (utf8 "a.mp3") 3))
     = 3%nat
  /\ waited (actions (download_binary_file
                        (fun _ => RequestException (utf8 "timeout"))
                        (utf8 "http://host/a.mp3") (utf8 "a.mp3") 3))
     = 15%Z.
Proof.
  assert (ended (download_binary_file
                   (fun _ => RequestException (utf8 "timeout"))
                   (utf8 "http://host/a.mp3") (utf8 "a.mp3") 3)
          = Returns (Some false)) as E by (by vm_compute).
  split; [exact E|].
  destruct (download_binary_file_effort
              (fun _ => RequestException (utf8 "timeout"))
              (utf8 "http://host/a.mp3") (utf8 "a.mp3") 3) as (_ & _ & H).
  destruct (H E) as [H1 H2]. split; lia.
Defined.

(** ** How fetching the data of a song ends *)

